(** * XPath iteration over XSD components: a model of [xmlschema/xpath.py]

    The Python module defines three generators that walk the children of
    schema components:

    - [ElementPathMixin.iter]               (plain node iteration, optional tag filter)
    - [ElementPathContext._iter_descendants] (nodes and text)
    - [ElementPathContext._iter_context]     (nodes, text and attributes)

    and the tag predicate [ElementPathMixin.match].

    Components are Python objects that may be shared between parents and may
    form cycles, so the model keeps them in a store addressed by handles: a
    handle is the identity of an object, the store gives its fields.  A
    generator is modelled by the list of items it yields, the final value of
    the closure variable [local_elements] / [local_items], and the way the
    run ended.  Recursion depth is bounded by a fuel argument: a run that
    needs a deeper recursion ends as [OutOfFuel], where the interpreter,
    at its own limit on the depth of the recursion, raises
    [RecursionError]. *)

From Stdlib Require Import String Ascii Arith ZArith Lia Bool.
From stdpp Require Import base list gmap strings.

(** ** Node model *)

(** Identity of a component object. *)
Abbreviation handle := nat.

(** The fields the walkers read.  [name] backs the [tag] property,
    [attributes] backs [attrib] (a mapping, kept in its iteration order),
    [children] is what [__iter__] produces, [ref] is [None] unless the
    component is a reference. *)
Record node := Node {
  name : string;
  text : option string;
  attributes : list (string * string);
  children : list handle;
  is_global : bool;
  ref : option handle
}.

(** The store: the object with identity [h] is [hp !! h]. *)
Abbreviation heap := (list node).

(** Everything a child list mentions is an object of the store. *)
Definition closed_heap (hp : heap) : bool :=
  forallb (fun n => forallb (fun c => c <? length hp) (children n)) hp.

(** ** Python values and outcomes *)

Inductive exn := IndexError.

(** What [match] can return: a comparison result or [None]. *)
Inductive pyval := PyBool (b : bool) | PyNone.

Definition truthy (v : pyval) : bool :=
  match v with PyBool b => b | PyNone => false end.

(** Truth value of [default_namespace]: [None] and [''] are false. *)
Definition ns_truthy (ns : option string) : bool :=
  match ns with
  | None => false
  | Some s => negb (String.eqb s ""%string)
  end.

(** What a generator yields: a component, a text, or an attribute pair. *)
Inductive item :=
  | INode (h : handle)
  | IText (s : string)
  | IAttr (k v : string).

(** How a run ended. *)
Inductive status (A : Type) :=
  | Ret (a : A)        (* the generator is exhausted *)
  | Raise (e : exn)    (* an exception propagated to the consumer *)
  | BadHandle          (* a handle outside the store: no Python state is like this *)
  | OutOfFuel.         (* recursion deeper than the fuel *)
Arguments Ret {A} a.
Arguments Raise {A} e.
Arguments BadHandle {A}.
Arguments OutOfFuel {A}.

(** A run: the items yielded so far, the registry, and the status. *)
#[projections(primitive)] Record Run (A : Type) := MkRun {
  yielded : list item;
  registry : list handle;
  outcome : status A
}.
Arguments MkRun {A} _ _ _.
Arguments yielded {A} _.
Arguments registry {A} _.
Arguments outcome {A} _.

(** A generator body: it starts from a registry and produces a run. *)
Definition Gen (A : Type) := list handle -> Run A.

Definition ret {A} (a : A) : Gen A := fun L => MkRun [] L (Ret a).
Definition halt {A} (s : status A) : Gen A := fun L => MkRun [] L s.
Definition raise {A} (e : exn) : Gen A := halt (Raise e).
Definition yield_ (i : item) : Gen unit := fun L => MkRun [i] L (Ret tt).
Definition get_registry : Gen (list handle) := fun L => MkRun [] L (Ret L).
(** [local_elements.append(child)] *)
Definition append_registry (c : handle) : Gen unit :=
  fun L => MkRun [] (L ++ [c]) (Ret tt).

Definition bind {A B} (m : Gen A) (k : A -> Gen B) : Gen B := fun L =>
  let r := m L in
  match outcome r with
  | Ret a =>
      let r' := k a (registry r) in
      MkRun (yielded r ++ yielded r') (registry r') (outcome r')
  | Raise e => MkRun (yielded r) (registry r) (Raise e)
  | BadHandle => MkRun (yielded r) (registry r) BadHandle
  | OutOfFuel => MkRun (yielded r) (registry r) OutOfFuel
  end.

Declare Scope gen_scope.
Delimit Scope gen_scope with gen.
Notation "x <- m ;; k" := (bind m (fun x => k))
  (at level 20, m at level 99, k at level 200, only parsing) : gen_scope.
Notation "m ;; k" := (bind m (fun _ => k))
  (at level 100, k at level 200, only parsing, right associativity) : gen_scope.
Local Open Scope gen_scope.

Definition when (b : bool) (m : Gen unit) : Gen unit :=
  if b then m else ret tt.

(** [for x in xs: body(x)] *)
Fixpoint for_each {A} (xs : list A) (body : A -> Gen unit) : Gen unit :=
  match xs with
  | [] => ret tt
  | x :: xs' => body x ;; for_each xs' body
  end.

(** ** Membership in the registry *)

(** [x in local_elements]: identity first, then [==].  Neither
    [ElementPathMixin] nor [collections.Sequence] defines [__eq__], so [==]
    is the default comparison of objects, that is identity again. *)
Definition py_eq (x y : handle) : bool := x =? y.
Definition py_in (c : handle) (L : list handle) : bool :=
  existsb (fun x => (x =? c) || py_eq x c) L.

(** ** [ElementPathMixin.match] *)

(** ['{%s}%s' % (default_namespace, tag)] *)
Definition qualified (ns tag : string) : string :=
  ("{" ++ ns ++ "}" ++ tag)%string.

(** [match(self, tag, default_namespace=None)].  [tag[0]] raises
    [IndexError] on the empty string; falling off the end returns [None]. *)
Definition match_ (self : node) (tag : string) (default_namespace : option string)
  : exn + pyval :=
  match tag with
  | EmptyString => inl IndexError
  | String c _ =>
      if Ascii.eqb c "{"%char then inr (PyBool (String.eqb (name self) tag))
      else if ns_truthy default_namespace then
        let ns := default ""%string default_namespace in
        inr (PyBool (String.eqb (name self) tag
                     || String.eqb (name self) (qualified ns tag)))
      else inr PyNone
  end.

(** The tag is written [{uri}local]: its first character is a brace. *)
Definition starts_with_brace (tag : string) : bool := String.prefix "{" tag.

(** ** The walkers *)

Section Walkers.

Variable hp : heap.

Definition deref (h : handle) : Gen node :=
  match hp !! h with
  | Some n => ret n
  | None => halt BadHandle
  end.

(** [tag is None or elem.match(tag)] *)
Definition tag_test (tag : option string) (elem : node) : Gen bool :=
  match tag with
  | None => ret true
  | Some t =>
      match match_ elem t None with
      | inl e => raise e
      | inr v => ret (truthy v)
      end
  end.

(** One turn of the loop [for child in elem] of [safe_iter]; [rec] is the
    recursive call.  The test in the reference branch is made on [elem],
    the parent, as in the source. *)
Definition iter_child (rec : handle -> Gen unit) (tag : option string)
    (elem : node) (child : handle) : Gen unit :=
  c <- deref child ;;
  if is_global c then rec child
  else match ref c with
       | Some _ =>
           b <- tag_test tag elem ;;
           when b (yield_ (INode child))
       | None =>
           L <- get_registry ;;
           if py_in child L then ret tt
           else append_registry child ;; rec child
       end.

(** [safe_iter] of [ElementPathMixin.iter]. *)
Fixpoint safe_iter (fuel : nat) (tag : option string) (elem : handle) : Gen unit :=
  match fuel with
  | 0 => halt OutOfFuel
  | S fuel' =>
      e <- deref elem ;;
      b <- tag_test tag e ;;
      when b (yield_ (INode elem)) ;;
      for_each (children e) (iter_child (safe_iter fuel' tag) tag e)
  end.

(** [ElementPathMixin.iter]: ['*'] stands for no filter, the registry
    starts empty. *)
Definition iter (fuel : nat) (self : handle) (tag : option string) : Run unit :=
  let tag := match tag with
             | Some t => if String.eqb t "*" then None else Some t
             | None => None
             end in
  safe_iter fuel tag self [].

(** One turn of the loop [for context.position, context.item in
    enumerate(elem)], the same in [safe_iter_descendants] and in
    [safe_iter_context].  The loop stores the child in [context.item] and
    the recursive generator reads it back at once ([elem = context.item]),
    before any item is handed to the consumer, so the recursive call is on
    the child.  [context.size] and [context.position] are written and never
    read by these generators; they are left out. *)
Definition context_child (rec : handle -> Gen unit) (child : handle) : Gen unit :=
  c <- deref child ;;
  if is_global c then rec child
  else match ref c with
       | Some _ => yield_ (INode child)
       | None =>
           L <- get_registry ;;
           if py_in child L then ret tt
           else append_registry child ;; rec child
       end.

(** [if elem.text is not None: context.item = elem.text; yield context.item] *)
Definition yield_text (e : node) : Gen unit :=
  match text e with
  | Some s => yield_ (IText s)
  | None => ret tt
  end.

(** [for item in elem.attrib.items(): context.item = item; yield item] *)
Definition yield_attrib (e : node) : Gen unit :=
  for_each (attributes e) (fun kv => yield_ (IAttr (fst kv) (snd kv))).

(** [safe_iter_descendants] of [ElementPathContext._iter_descendants]. *)
Fixpoint safe_iter_descendants (fuel : nat) (elem : handle) : Gen unit :=
  match fuel with
  | 0 => halt OutOfFuel
  | S fuel' =>
      e <- deref elem ;;
      yield_ (INode elem) ;;
      yield_text e ;;
      when (0 <? length (children e))
        (for_each (children e) (context_child (safe_iter_descendants fuel')))
  end.

(** [safe_iter_context] of [ElementPathContext._iter_context]. *)
Fixpoint safe_iter_context (fuel : nat) (elem : handle) : Gen unit :=
  match fuel with
  | 0 => halt OutOfFuel
  | S fuel' =>
      e <- deref elem ;;
      yield_ (INode elem) ;;
      yield_text e ;;
      yield_attrib e ;;
      when (0 <? length (children e))
        (for_each (children e) (context_child (safe_iter_context fuel')))
  end.

(** The two methods of [ElementPathContext]; [item] is [context.item] when
    the generator is started. *)
Definition _iter_descendants (fuel : nat) (item : handle) : Run unit :=
  safe_iter_descendants fuel item [].

Definition _iter_context (fuel : nat) (item : handle) : Run unit :=
  safe_iter_context fuel item [].

End Walkers.

(** ** Views of a run *)

(** The text item of a component, if it has a text. *)
Definition text_items (e : node) : list item :=
  match text e with
  | Some s => [IText s]
  | None => []
  end.

(** One item per attribute, in the order of the mapping. *)
Definition attr_items (e : node) : list item :=
  map (fun kv => IAttr (fst kv) (snd kv)) (attributes e).

(** The components among the items, in order. *)
Definition nodes_of (l : list item) : list handle :=
  omap (fun i => match i with INode h => Some h | _ => None end) l.

(** Two runs that differ only by the text and attribute items. *)
Definition same_nodes {A} (r r0 : Run A) : Prop :=
  nodes_of (yielded r) = nodes_of (yielded r0) /\
  registry r = registry r0 /\
  outcome r = outcome r0.

(** Every item yielded by [m] satisfies [P]. *)
Definition yields_only {A} (P : item -> Prop) (m : Gen A) : Prop :=
  forall L, Forall P (yielded (m L)).

Definition node_item (i : item) : Prop := exists h, i = INode h.

(** No exception leaves [m]. *)
Definition never_raises {A} (m : Gen A) : Prop :=
  forall L e, outcome (m L) <> Raise e.

(** The runs of the three traversal calls without a filter. *)
Inductive traversal (hp : heap) (fuel : nat) (root : handle) : Run unit -> Prop :=
  | traversal_iter : traversal hp fuel root (iter hp fuel root None)
  | traversal_descendants : traversal hp fuel root (_iter_descendants hp fuel root)
  | traversal_context : traversal hp fuel root (_iter_context hp fuel root).

(** An ordinary local component: not global, not a reference. *)
Definition plain_local (hp : heap) (h : handle) : Prop :=
  exists n, hp !! h = Some n /\ is_global n = false /\ ref n = None.

(** A component that is recursed into when the loop reaches it (unless the
    registry holds it): it is global, or it is not a reference. *)
Definition expands (hp : heap) (p : handle) : bool :=
  match hp !! p with
  | Some n => is_global n || match ref n with None => true | Some _ => false end
  | None => false
  end.

(** The walk of run [r] went through the children of some component and
    [c] is one of them: the component was yielded, and it is the root or a
    component that is recursed into. *)
Definition encountered (hp : heap) (root : handle) (r : Run unit) (c : handle) : Prop :=
  exists p e, p ∈ nodes_of (yielded r) /\ (p = root \/ expands hp p = true) /\
              hp !! p = Some e /\ c ∈ children e.

(** Run [r], started with registry [L], added to the registry only
    components that it yielded, and the registry now holds every ordinary
    local child of every component it recursed into. *)
Definition covers (hp : heap) (L : list handle) (r : Run unit) : Prop :=
  (exists new, registry r = L ++ new /\ forall x, x ∈ new -> x ∈ nodes_of (yielded r)) /\
  (forall p n c, p ∈ nodes_of (yielded r) -> expands hp p = true ->
     hp !! p = Some n -> c ∈ children n -> plain_local hp c -> c ∈ registry r).

(** ** Trees without sharing *)

(** A tree of component identities: a component and the trees of its
    children, in document order. *)
#[local] Unset Elimination Schemes.
Inductive rose := Rose (h : handle) (kids : list rose).
#[local] Set Elimination Schemes.

Definition root_of (t : rose) : handle :=
  match t with Rose h _ => h end.

Definition kids_of (t : rose) : list rose :=
  match t with Rose _ ks => ks end.

(** The naive recursive pre-order traversal: the root first, then the
    subtree of each child in document order. *)
Fixpoint preorder (t : rose) : list handle :=
  match t with
  | Rose h ks => h :: flat_map preorder ks
  end.

Fixpoint depth (t : rose) : nat :=
  match t with
  | Rose _ ks => S (max_list (map depth ks))
  end.

(** Number of nodes of the tree. *)
Fixpoint size (t : rose) : nat :=
  match t with
  | Rose _ ks => S (sum_list (map size ks))
  end.

(** The store below [root_of t] is the tree [t], and none of its
    components is global or a reference. *)
Fixpoint shape (hp : heap) (t : rose) : bool :=
  match t with
  | Rose h ks =>
      match hp !! h with
      | Some n =>
          negb (is_global n) &&
          match ref n with None => true | Some _ => false end &&
          bool_decide (children n = map root_of ks) &&
          forallb (shape hp) ks
      | None => false
      end
  end.

(** How many times the component [c] occurs in a list of components. *)
Definition occurrences (c : handle) (l : list handle) : nat :=
  count_occ Nat.eq_dec l c.

(** Run [r], started with registry [L], only added to the registry, kept
    it free of duplicates, and yielded an ordinary local component once
    for each of its occurrences in [base] and once each time it added it to
    the registry. *)
Definition tally (hp : heap) (L base : list handle) (r : Run unit) : Prop :=
  exists new, registry r = L ++ new /\
    (NoDup L -> NoDup (registry r)) /\
    forall c, plain_local hp c ->
      occurrences c (nodes_of (yielded r)) = occurrences c base + occurrences c new.

(** ** The store seen from the start of a walk *)

(** The components that a walk started on [root] recurses into, read off
    the store alone: the start, and every child of such a component that
    is global or is not a reference. *)
Inductive walked (hp : heap) (root : handle) : handle -> Prop :=
  | walked_start : walked hp root root
  | walked_child p e c :
      walked hp root p -> hp !! p = Some e -> c ∈ children e ->
      expands hp c = true -> walked hp root c.

(** The components that the loops of such a walk reach: the children of
    the components it recurses into. *)
Definition met (hp : heap) (root c : handle) : Prop :=
  exists p e, walked hp root p /\ hp !! p = Some e /\ c ∈ children e.

(** The components below [root] along the child edges of the store. *)
Inductive descendant (hp : heap) (root : handle) : handle -> Prop :=
  | descendant_self : descendant hp root root
  | descendant_child p e c :
      descendant hp root p -> hp !! p = Some e -> c ∈ children e ->
      descendant hp root c.

(** The components a run yielded after the one it was started on. *)
Definition after_start (r : Run unit) : list handle :=
  tail (nodes_of (yielded r)).

Definition children_of (hp : heap) (p : handle) : list handle :=
  match hp !! p with
  | Some e => children e
  | None => []
  end.

(** The components whose children the run went through, once for each
    time it did: the start, and each later yield of a component that is
    recursed into. *)
Definition expansions (hp : heap) (r : Run unit) : list handle :=
  match nodes_of (yielded r) with
  | [] => []
  | start :: rest => start :: List.filter (expands hp) rest
  end.

(** How many times [c] stands in the child lists of the components [ps],
    counted with their repetitions. *)
Fixpoint encounters (hp : heap) (ps : list handle) (c : handle) : nat :=
  match ps with
  | [] => 0
  | p :: ps' => occurrences c (children_of hp p) + encounters hp ps' c
  end.

(** The loop over the children [cs], started with registry [L], yielded
    the components [ns] and left the registry [L']: it only added
    components that it yielded, every child is in the old registry or was
    yielded, and so is every child of a yielded component that is recursed
    into. *)
Definition closed_under (hp : heap) (L cs ns L' : list handle) : Prop :=
  (exists new, L' = L ++ new /\ forall x, x ∈ new -> x ∈ ns) /\
  (forall c, c ∈ cs -> c ∈ L \/ c ∈ ns) /\
  (forall p e c, p ∈ ns -> expands hp p = true -> hp !! p = Some e ->
     c ∈ children e -> c ∈ L \/ c ∈ ns).

(** The loop over [cs] yielded [c] once for each of its occurrences in
    [cs] and in the child lists of the components it recursed into. *)
Definition flows (hp : heap) (c : handle) (cs ns : list handle) : Prop :=
  occurrences c ns =
  occurrences c cs + encounters hp (List.filter (expands hp) ns) c.

(** ** The order of the items of the full-context walk *)

(** What the full-context walk yields when it recurses into [h]: the
    component, its text, its attributes. *)
Definition header (hp : heap) (h : handle) : list item :=
  match hp !! h with
  | Some e => INode h :: text_items e ++ attr_items e
  | None => [INode h]
  end.

(** What it yields for a component met in a loop: a reference child comes
    alone. *)
Definition block (hp : heap) (h : handle) : list item :=
  if expands hp h then header hp h else [INode h].

(** The items of the full-context walk, from the components of the plain
    walk: the first one is the start. *)
Definition context_blocks (hp : heap) (ns : list handle) : list item :=
  match ns with
  | [] => []
  | start :: rest => header hp start ++ flat_map (block hp) rest
  end.

(** The order of the items in words: visiting [h] with registry [L] gives
    the component, its text if it has one, one pair per attribute, then the
    items of its children in document order, and leaves the registry [L'].
    A global child is visited; a reference child gives itself alone; an
    ordinary local child is visited if the registry does not hold it, and
    gives nothing otherwise. *)
Inductive context_items (hp : heap) :
    handle -> list handle -> list item -> list handle -> Prop :=
  | visit h e L its L' :
      hp !! h = Some e ->
      children_items hp (children e) L its L' ->
      context_items hp h L (INode h :: text_items e ++ attr_items e ++ its) L'
with children_items (hp : heap) :
    list handle -> list handle -> list item -> list handle -> Prop :=
  | children_done L : children_items hp [] L [] L
  | child_global c cn cs L its L1 rest L2 :
      hp !! c = Some cn -> is_global cn = true ->
      context_items hp c L its L1 ->
      children_items hp cs L1 rest L2 ->
      children_items hp (c :: cs) L (its ++ rest) L2
  | child_reference c cn target cs L rest L2 :
      hp !! c = Some cn -> is_global cn = false -> ref cn = Some target ->
      children_items hp cs L rest L2 ->
      children_items hp (c :: cs) L (INode c :: rest) L2
  | child_seen c cn cs L rest L2 :
      hp !! c = Some cn -> is_global cn = false -> ref cn = None ->
      c ∈ L ->
      children_items hp cs L rest L2 ->
      children_items hp (c :: cs) L rest L2
  | child_new c cn cs L its L1 rest L2 :
      hp !! c = Some cn -> is_global cn = false -> ref cn = None ->
      c ∉ L ->
      context_items hp c (L ++ [c]) its L1 ->
      children_items hp cs L1 rest L2 ->
      children_items hp (c :: cs) L (its ++ rest) L2.

(** ** Termination measure *)

(** The run stopped by itself: exhausted, or an exception was raised. *)
Definition ended {A} (s : status A) : bool :=
  match s with
  | Ret _ | Raise _ => true
  | BadHandle | OutOfFuel => false
  end.

Definition glob (hp : heap) (h : handle) : bool :=
  match hp !! h with
  | Some n => is_global n
  | None => false
  end.

(** [rk] decreases along every child edge from a global component to a
    global component: no cycle of child edges runs through globals only. *)
Definition global_ranked (hp : heap) (rk : handle -> nat) : bool :=
  forallb (fun p =>
    negb (glob hp p) ||
    match hp !! p with
    | Some n => forallb (fun c => negb (glob hp c) || (rk c <? rk p)) (children n)
    | None => true
    end) (seq 0 (length hp)).

(** Components of the store that are not in the registry. *)
Definition free (hp : heap) (L : list handle) : nat :=
  length (list_difference (seq 0 (length hp)) L).

(** A strict bound on the ranks of the store. *)
Definition rank_bound (hp : heap) (rk : handle -> nat) : nat :=
  S (max_list (rk <$> seq 0 (length hp))).

Definition level (hp : heap) (rk : handle -> nat) (h : handle) : nat :=
  if glob hp h then rk h else rank_bound hp rk.

(** Fuel that is enough to walk from [h] with registry [L]. *)
Definition enough_fuel (hp : heap) (rk : handle -> nat) (L : list handle) (h : handle) : nat :=
  free hp L * S (rank_bound hp rk) + level hp rk h + 1.

(** The run ended and its registry leaves at most [B] components free. *)
Definition good {A} (hp : heap) (B : nat) (r : Run A) : Prop :=
  ended (outcome r) = true /\ free hp (registry r) ≤ B.

(** ** Sample stores *)

Definition leaf (nm : string) : node := Node nm None [] [] false None.

(** A local parent [{u}a] with one reference child [{u}b]. *)
Definition hp_ref : heap :=
  [ Node "{u}a" None [] [1] false None;
    Node "{u}b" None [] [] false (Some 2);
    Node "{u}b" None [] [] true None ].

(** A global component that is its own child. *)
Definition hp_global_loop : heap :=
  [ Node "g" None [] [0] true None ].

(** A local component that is its own child. *)
Definition hp_local_loop : heap :=
  [ Node "r" None [] [0] false None ].

(** A root that reaches the global 1 twice; the global has the local child 2. *)
Definition hp_twice : heap :=
  [ Node "root" None [] [1; 1] false None;
    Node "g" None [] [2] true None;
    leaf "l" ].

(** The component 1 is flagged both global and reference; the root
    reaches it twice. *)
Definition hp_both : heap :=
  [ Node "root" None [] [1; 1] false None;
    Node "g" None [] [2] true (Some 1);
    Node "r" None [] [0] false (Some 1) ].

(** Two distinct components with the same fields under one root. *)
Definition hp_twins : heap :=
  [ Node "root" None [] [1; 2] false None; leaf "x"; leaf "x" ].

(** A component flagged both global and reference that is its own child. *)
Definition hp_both_loop : heap :=
  [ Node "g" None [] [0] true (Some 0) ].


(** A root with a reference child that has a text and an attribute. *)
Definition hp_ref_text : heap :=
  [ Node "root" None [] [1] false None;
    Node "r" (Some "t"%string) [("k", "v")]%string [] false (Some 0) ].

(** The document [<a><b1><c1/><c2/></b1><b2/><b3><c3/></b3></a>]. *)
Definition hp_doc : heap :=
  [ Node "a" None [] [1; 4; 5] false None;
    Node "b1" None [] [2; 3] false None;
    leaf "c1"; leaf "c2"; leaf "b2";
    Node "b3" None [] [6] false None;
    leaf "c3" ].

Definition tree_doc : rose :=
  Rose 0 [ Rose 1 [Rose 2 []; Rose 3 []]; Rose 4 []; Rose 5 [Rose 6 []] ].

(** A store with every kind of edge: the root 0 reaches the global 1
    twice; 1 has a text, an attribute, the local child 4 and the global
    child 5; 2 is a reference to 1; the locals 3 and 4 are children of each
    other, and 4 leads back to the global 1. *)
Definition hp_mixed : heap :=
  [ Node "root" None [] [1; 2; 3; 1] false None;
    Node "g" (Some "t"%string) [("k", "v")]%string [4; 5] true None;
    Node "r" None [] [0] false (Some 1);
    Node "a" None [] [4] false None;
    Node "b" None [] [3; 1] false None;
    Node "h" None [] [] true None ].

Definition rk_mixed (h : handle) : nat :=
  match h with
  | 1 => 1
  | _ => 0
  end.

(** ** The rest of [ElementPathMixin] *)

(** [iterchildren]: the children of the component that pass the filter.
    There is no recursion and no registry, and the test is made on the
    child. *)
Definition iterchildren (hp : heap) (self : handle) (tag : option string) : Run unit :=
  let tag := match tag with
             | Some t => if String.eqb t "*" then None else Some t
             | None => None
             end in
  bind (deref hp self) (fun e =>
    for_each (children e) (fun child =>
      bind (deref hp child) (fun c =>
        bind (tag_test tag c) (fun b => when b (yield_ (INode child)))))) [].

(** [l[i]] for a Python list and an integer: negative indexes count from
    the end, anything outside [-len(l), len(l)) raises [IndexError]. *)
Definition py_index {A} (l : list A) (i : Z) : exn + A :=
  let n := Z.of_nat (length l) in
  let j := if (i <? 0)%Z then (n + i)%Z else i in
  if ((0 <=? j) && (j <? n))%Z then
    match l !! Z.to_nat j with
    | Some x => inr x
    | None => inl IndexError
    end
  else inl IndexError.

(** [__len__]: [len([e for e in self])]. *)
Definition __len__ (self : node) : nat := length (children self).

(** [__getitem__]: [[e for e in self][i]]. *)
Definition __getitem__ (self : node) (i : Z) : exn + handle :=
  py_index (children self) i.

(** [__reversed__]: [reversed([e for e in self])], as the list it produces. *)
Definition __reversed__ (self : node) : list handle := reverse (children self).

(** Lookup in the attribute mapping, given by its items. *)
Fixpoint assoc (key : string) (kvs : list (string * string)) : option string :=
  match kvs with
  | [] => None
  | (k, v) :: kvs' => if String.eqb k key then Some v else assoc key kvs'
  end.

(** [get(key, default=None)]: [self.attrib.get(key, default)]. *)
Definition get (self : node) (key : string) (default : option string) : option string :=
  match assoc key (attributes self) with
  | Some v => Some v
  | None => default
  end.

(** [xpath_namespaces], from the two attributes it reads: [namespaces]
    ([None] here when the component has no such attribute) and
    [xpath_default_namespace].  Without [namespaces] the property falls off
    its end and gives [None]. *)
Definition xpath_namespaces (namespaces : option (gmap string string))
    (xpath_default_namespace : option string) : option (gmap string string) :=
  match namespaces with
  | None => None
  | Some ns =>
      let kept := filter (fun kv => kv.1 <> ""%string) ns in
      Some match xpath_default_namespace with
           | Some d => <[""%string := d]> kept
           | None => kept
           end
  end.

(** [if path.startswith('/'): path = u'.%s' % path] *)
Definition relative_path (path : string) : string :=
  if String.prefix "/" path then ("." ++ path)%string else path.

(** [iterfind], [find] and [findall].  The parser and the selectors belong
    to the [elementpath] library; they are parameters here: [parse] is
    [XPath2Parser(namespaces, strict=False).parse], which may raise,
    [select] and [get_results] are the methods of the root token, applied
    to [ElementPathContext(self)]. *)
Section Find.

Variables (token error result : Type).
Variable parse : option (gmap string string) -> string -> error + token.
Variable select : token -> handle -> list item.
Variable get_results : token -> handle -> result.

(** [self.xpath_namespaces if namespaces is None else namespaces] *)
Definition effective_namespaces (self_namespaces namespaces : option (gmap string string))
  : option (gmap string string) :=
  match namespaces with
  | None => self_namespaces
  | Some ns => Some ns
  end.

Definition iterfind (self : handle) (self_namespaces : option (gmap string string))
    (path : string) (namespaces : option (gmap string string)) : error + list item :=
  match parse (effective_namespaces self_namespaces namespaces) (relative_path path) with
  | inl e => inl e
  | inr root_token => inr (select root_token self)
  end.

(** [next(root_token.select(context), None)] *)
Definition find (self : handle) (self_namespaces : option (gmap string string))
    (path : string) (namespaces : option (gmap string string)) : error + option item :=
  match parse (effective_namespaces self_namespaces namespaces) (relative_path path) with
  | inl e => inl e
  | inr root_token => inr (head (select root_token self))
  end.

Definition findall (self : handle) (self_namespaces : option (gmap string string))
    (path : string) (namespaces : option (gmap string string)) : error + result :=
  match parse (effective_namespaces self_namespaces namespaces) (relative_path path) with
  | inl e => inl e
  | inr root_token => inr (get_results root_token self)
  end.

End Find.

(** What [tag is None or x.match(tag)] gives for the component [c] of the
    store, when it does not raise. *)
Definition selected (hp : heap) (tag : option string) (c : handle) : bool :=
  match tag, hp !! c with
  | None, _ => true
  | Some t, Some n =>
      match match_ n t None with
      | inr v => truthy v
      | inl _ => false
      end
  | Some _, None => false
  end.

(** The component [c] of the store is named [t]. *)
Definition named (hp : heap) (t : string) (c : handle) : bool :=
  match hp !! c with
  | Some n => String.eqb (name n) t
  | None => false
  end.

(** A child that is yielded without being walked: not global, with [ref]. *)
Definition reference_leaf (n : node) : bool :=
  negb (is_global n) && match ref n with Some _ => true | None => false end.

Definition is_attr (i : item) : bool :=
  match i with IAttr _ _ => true | _ => false end.

(** Two runs with the same registry and the same end, whose yielded items
    are related by [Q]. *)
Definition related {A} (Q : list item -> list item -> Prop) (r r' : Run A) : Prop :=
  Q (yielded r) (yielded r') /\ registry r = registry r' /\ outcome r = outcome r'.

(** The item is a component that passes the filter [tag]. *)
Definition item_selected (hp : heap) (tag : option string) (i : item) : bool :=
  match i with
  | INode h => selected hp tag h
  | _ => false
  end.

(** A root [{u}a] with two ordinary local children, [{u}b] and [{u}a]. *)
Definition hp_ns : heap :=
  [ Node "{u}a" None [] [1; 2] false None; leaf "{u}b"; leaf "{u}a" ].

(** ** Basic facts about generators *)

Lemma bind_ret_l {A B} (a : A) (k : A -> Gen B) L : bind (ret a) k L = k a L.
Proof. reflexivity. Qed.

Lemma bind_Ret {A B} (m : Gen A) (k : A -> Gen B) L ys L1 a :
  m L = MkRun ys L1 (Ret a) ->
  bind m k L = MkRun (ys ++ yielded (k a L1)) (registry (k a L1)) (outcome (k a L1)).
Proof. intros E. unfold bind. rewrite E. reflexivity. Qed.

Lemma bind_yield {B} i (k : unit -> Gen B) L :
  bind (yield_ i) k L = MkRun (i :: yielded (k tt L)) (registry (k tt L)) (outcome (k tt L)).
Proof. reflexivity. Qed.

Lemma bind_get_registry {B} (k : list handle -> Gen B) L :
  bind get_registry k L = k L L.
Proof. reflexivity. Qed.

Lemma bind_append_registry {B} c (k : unit -> Gen B) L :
  bind (append_registry c) k L = k tt (L ++ [c]).
Proof. reflexivity. Qed.

Lemma py_in_spec c L : py_in c L = true <-> c ∈ L.
Proof.
  unfold py_in, py_eq. rewrite existsb_exists. split.
  - intros (x & Hx & E). apply orb_true_iff in E.
    assert (x = c) as -> by (destruct E as [E|E]; apply Nat.eqb_eq in E; exact E).
    by apply list_elem_of_In.
  - intros Hc. exists c. split; [by apply list_elem_of_In|].
    by rewrite Nat.eqb_refl.
Qed.

Lemma py_in_false c L : py_in c L = false <-> c ∉ L.
Proof.
  rewrite <- py_in_spec. destruct (py_in c L); split; congruence.
Qed.

Lemma deref_Some hp h n L : hp !! h = Some n -> deref hp h L = MkRun [] L (Ret n).
Proof. intros E. unfold deref. by rewrite E. Qed.

Lemma for_each_cons {A} (x : A) xs body L :
  for_each (x :: xs) body L = bind (body x) (fun _ => for_each xs body) L.
Proof. reflexivity. Qed.

Lemma safe_iter_S hp fuel tag elem e L :
  hp !! elem = Some e ->
  safe_iter hp (S fuel) tag elem L =
  bind (tag_test tag e) (fun b =>
    bind (when b (yield_ (INode elem))) (fun _ =>
      for_each (children e) (iter_child hp (safe_iter hp fuel tag) tag e))) L.
Proof.
  intros E. change (safe_iter hp (S fuel) tag elem L) with
    (bind (deref hp elem) (fun e => bind (tag_test tag e) (fun b =>
       bind (when b (yield_ (INode elem))) (fun _ =>
         for_each (children e) (iter_child hp (safe_iter hp fuel tag) tag e)))) L).
  unfold bind at 1. by rewrite (deref_Some _ _ _ _ E).
Qed.

Lemma iter_child_S hp rec tag e child c L :
  hp !! child = Some c ->
  iter_child hp rec tag e child L =
  (if is_global c then rec child
   else match ref c with
        | Some _ => bind (tag_test tag e) (fun b => when b (yield_ (INode child)))
        | None => bind get_registry (fun L =>
                    if py_in child L then ret tt
                    else bind (append_registry child) (fun _ => rec child))
        end) L.
Proof.
  intros E. unfold iter_child. unfold bind at 1. by rewrite (deref_Some _ _ _ _ E).
Qed.

(** ** Shape of the yielded items *)

Lemma yields_only_bind {A B} P (m : Gen A) (k : A -> Gen B) :
  yields_only P m -> (forall a, yields_only P (k a)) -> yields_only P (bind m k).
Proof.
  intros Hm Hk L. unfold bind. specialize (Hm L).
  destruct (outcome (m L)); simpl; auto.
  apply Forall_app; split; [exact Hm | apply Hk].
Qed.

Lemma yields_only_silent {A} P (m : Gen A) :
  (forall L, yielded (m L) = []) -> yields_only P m.
Proof. intros H L. rewrite H. constructor. Qed.

Lemma yields_only_for_each {A} P (xs : list A) body :
  (forall x, yields_only P (body x)) -> yields_only P (for_each xs body).
Proof.
  intros Hb. induction xs as [|x xs IH]; simpl.
  - intros L. constructor.
  - apply yields_only_bind; auto.
Qed.

Lemma yields_only_when P b m : yields_only P m -> yields_only P (when b m).
Proof. destruct b; simpl; auto. intros _ L. constructor. Qed.

Lemma yields_only_yield (P : item -> Prop) i : P i -> yields_only P (yield_ i).
Proof. intros Hi L. simpl. by constructor. Qed.

Lemma deref_silent hp h L : yielded (deref hp h L) = [].
Proof. unfold deref. by destruct (hp !! h). Qed.

Lemma tag_test_silent tag e L : yielded (tag_test tag e L) = [].
Proof.
  unfold tag_test. destruct tag as [t|]; [|done].
  by destruct (match_ e t None).
Qed.

Lemma iter_child_nodes hp rec tag e child :
  (forall c, yields_only node_item (rec c)) ->
  yields_only node_item (iter_child hp rec tag e child).
Proof.
  intros Hrec. unfold iter_child.
  apply yields_only_bind; [apply yields_only_silent, deref_silent|].
  intros c. destruct (is_global c); [apply Hrec|].
  destruct (ref c).
  - apply yields_only_bind; [apply yields_only_silent, tag_test_silent|].
    intros b. apply yields_only_when, yields_only_yield. by eexists.
  - apply yields_only_bind; [by apply yields_only_silent|].
    intros L. destruct (py_in child L); [by apply yields_only_silent|].
    apply yields_only_bind; [by apply yields_only_silent | intros _; apply Hrec].
Qed.

Lemma safe_iter_nodes hp fuel tag elem :
  yields_only node_item (safe_iter hp fuel tag elem).
Proof.
  revert elem. induction fuel as [|fuel IH]; intros elem; simpl.
  - by apply yields_only_silent.
  - apply yields_only_bind; [apply yields_only_silent, deref_silent|].
    intros e.
    apply yields_only_bind; [apply yields_only_silent, tag_test_silent|].
    intros b. apply yields_only_bind.
    + apply yields_only_when, yields_only_yield. by eexists.
    + intros _. apply yields_only_for_each. intros c.
      by apply iter_child_nodes.
Qed.

(** C8.  The plain node iteration ([iter], with or without a tag filter)
    yields components only: every item is a node, so no item is the text
    of a node, whatever the store, the fuel and the filter. *)
Theorem iter_yields_only_nodes hp fuel self tag :
  Forall node_item (yielded (iter hp fuel self tag)) /\
  forall s, IText s ∉ yielded (iter hp fuel self tag).
Proof.
  assert (Forall node_item (yielded (iter hp fuel self tag))) as H
    by apply safe_iter_nodes.
  split; [exact H|].
  intros s Hin. rewrite Forall_forall in H.
  destruct (H _ Hin) as [h Hh]. discriminate.
Qed.

(** The walk of [_iter_descendants], by contrast, does yield the text. *)
Lemma iter_descendants_yields_text hp fuel item e s L :
  hp !! item = Some e -> text e = Some s ->
  IText s ∈ yielded (safe_iter_descendants hp (S fuel) item L).
Proof.
  intros He Hs. simpl. unfold deref at 1. rewrite He. rewrite bind_ret_l.
  rewrite bind_yield. simpl. unfold yield_text at 1. rewrite Hs.
  rewrite bind_yield. simpl. apply list_elem_of_further, list_elem_of_here.
Qed.

(** ** The full-context walk, one component at a time *)

Lemma yield_text_run e L : yield_text e L = MkRun (text_items e) L (Ret tt).
Proof. unfold yield_text, text_items. by destruct (text e). Qed.

Lemma yield_attrib_run e L : yield_attrib e L = MkRun (attr_items e) L (Ret tt).
Proof.
  unfold yield_attrib, attr_items.
  induction (attributes e) as [|kv kvs IH]; [done|].
  rewrite for_each_cons, bind_yield, IH. reflexivity.
Qed.

Lemma when_nonempty {A} (cs : list A) body L :
  when (0 <? length cs) (for_each cs body) L = for_each cs body L.
Proof. by destruct cs. Qed.

Lemma safe_iter_context_S hp fuel elem e L :
  hp !! elem = Some e ->
  safe_iter_context hp (S fuel) elem L =
  let kids := for_each (children e) (context_child hp (safe_iter_context hp fuel)) L in
  MkRun (INode elem :: text_items e ++ attr_items e ++ yielded kids)
        (registry kids) (outcome kids).
Proof.
  intros E.
  change (safe_iter_context hp (S fuel) elem L) with
    (bind (deref hp elem) (fun e =>
       bind (yield_ (INode elem)) (fun _ =>
         bind (yield_text e) (fun _ =>
           bind (yield_attrib e) (fun _ =>
             when (0 <? length (children e))
               (for_each (children e) (context_child hp (safe_iter_context hp fuel))))))) L).
  unfold bind at 1. rewrite (deref_Some _ _ _ _ E). cbn [outcome registry yielded app].
  rewrite bind_yield.
  rewrite (bind_Ret _ _ _ _ _ _ (yield_text_run e L)).
  rewrite (bind_Ret _ _ _ _ _ _ (yield_attrib_run e L)).
  rewrite when_nonempty. reflexivity.
Qed.

Lemma safe_iter_descendants_S hp fuel elem e L :
  hp !! elem = Some e ->
  safe_iter_descendants hp (S fuel) elem L =
  let kids := for_each (children e) (context_child hp (safe_iter_descendants hp fuel)) L in
  MkRun (INode elem :: text_items e ++ yielded kids) (registry kids) (outcome kids).
Proof.
  intros E.
  change (safe_iter_descendants hp (S fuel) elem L) with
    (bind (deref hp elem) (fun e =>
       bind (yield_ (INode elem)) (fun _ =>
         bind (yield_text e) (fun _ =>
           when (0 <? length (children e))
             (for_each (children e) (context_child hp (safe_iter_descendants hp fuel)))))) L).
  unfold bind at 1. rewrite (deref_Some _ _ _ _ E). cbn [outcome registry yielded app].
  rewrite bind_yield.
  rewrite (bind_Ret _ _ _ _ _ _ (yield_text_run e L)).
  rewrite when_nonempty. reflexivity.
Qed.



(** ** The unfiltered walk and the two context walks *)

Lemma bind_ext {A B} (m : Gen A) (k k' : A -> Gen B) L :
  (forall a L', k a L' = k' a L') -> bind m k L = bind m k' L.
Proof. intros H. unfold bind. destruct (outcome (m L)); by rewrite ?H. Qed.

Lemma bind_ext_l {A B} (m m' : Gen A) (k : A -> Gen B) L :
  m L = m' L -> bind m k L = bind m' k L.
Proof. intros H. unfold bind. by rewrite H. Qed.

Lemma for_each_ext {A} (xs : list A) body body' L :
  (forall x L', body x L' = body' x L') ->
  for_each xs body L = for_each xs body' L.
Proof.
  intros H. revert L. induction xs as [|x xs IH]; intros L; [done|].
  rewrite !for_each_cons. unfold bind. rewrite H.
  destruct (outcome (body' x L)); by rewrite ?IH.
Qed.

(** Without a filter the test of [safe_iter] always succeeds, and its loop
    body is the loop body of the context walks. *)
Lemma iter_child_None hp rec e child L :
  iter_child hp rec None e child L = context_child hp rec child L.
Proof.
  unfold iter_child, context_child, deref.
  destruct (hp !! child) as [c|]; [|done].
  rewrite !bind_ret_l. destruct (is_global c); [done|]. by destruct (ref c).
Qed.

Lemma safe_iter_None_S hp fuel elem e L :
  hp !! elem = Some e ->
  safe_iter hp (S fuel) None elem L =
  let kids := for_each (children e) (context_child hp (safe_iter hp fuel None)) L in
  MkRun (INode elem :: yielded kids) (registry kids) (outcome kids).
Proof.
  intros E. rewrite (safe_iter_S _ _ _ _ _ _ E).
  change (bind (tag_test None e) ?k L) with (k true L). cbv beta.
  change (when true (yield_ (INode elem))) with (yield_ (INode elem)).
  rewrite bind_yield.
  rewrite (for_each_ext _ _ (context_child hp (safe_iter hp fuel None)))
    by apply iter_child_None.
  reflexivity.
Qed.

Lemma walk_0 hp tag elem L :
  safe_iter hp 0 tag elem L = MkRun [] L OutOfFuel /\
  safe_iter_descendants hp 0 elem L = MkRun [] L OutOfFuel /\
  safe_iter_context hp 0 elem L = MkRun [] L OutOfFuel.
Proof. done. Qed.

Lemma walk_dangling hp fuel tag elem L :
  hp !! elem = None ->
  safe_iter hp (S fuel) tag elem L = MkRun [] L BadHandle /\
  safe_iter_descendants hp (S fuel) elem L = MkRun [] L BadHandle /\
  safe_iter_context hp (S fuel) elem L = MkRun [] L BadHandle.
Proof.
  intros E. repeat split; simpl; unfold bind at 1, deref; by rewrite E.
Qed.

Lemma nodes_of_app l k : nodes_of (l ++ k) = nodes_of l ++ nodes_of k.
Proof. apply omap_app. Qed.

Lemma nodes_of_fmap l : nodes_of (INode <$> l) = l.
Proof. induction l as [|x l IH]; [done|]. cbn. f_equal. exact IH. Qed.

Lemma nodes_of_text e : nodes_of (text_items e) = [].
Proof. unfold text_items. by destruct (text e). Qed.

Lemma nodes_of_attr e : nodes_of (attr_items e) = [].
Proof. unfold attr_items. by induction (attributes e). Qed.

Lemma same_nodes_bind {A B} (m m0 : Gen A) (k k0 : A -> Gen B) L :
  same_nodes (m L) (m0 L) ->
  (forall a L', same_nodes (k a L') (k0 a L')) ->
  same_nodes (bind m k L) (bind m0 k0 L).
Proof.
  intros (Hy & Hr & Ho) Hk. unfold bind. rewrite <- Ho.
  destruct (outcome (m L)) as [a| | |]; try done.
  rewrite <- Hr. destruct (Hk a (registry (m L))) as (Hy' & Hr' & Ho').
  repeat split; try done. cbn [yielded]. by rewrite !nodes_of_app, Hy, Hy'.
Qed.

Lemma same_nodes_for_each {A} (xs : list A) body body0 L :
  (forall x L', same_nodes (body x L') (body0 x L')) ->
  same_nodes (for_each xs body L) (for_each xs body0 L).
Proof.
  intros H. revert L. induction xs as [|x xs IH]; intros L; [done|].
  rewrite !for_each_cons. apply same_nodes_bind; auto.
Qed.

Lemma same_nodes_context_child hp rec rec0 c L :
  (forall c' L', same_nodes (rec c' L') (rec0 c' L')) ->
  same_nodes (context_child hp rec c L) (context_child hp rec0 c L).
Proof.
  intros H. unfold context_child. apply same_nodes_bind; [done|].
  intros cn L'. destruct (is_global cn); [apply H|].
  destruct (ref cn); [done|].
  apply same_nodes_bind; [done|]. intros L1 L2.
  destruct (py_in c L1); [done|]. apply same_nodes_bind; [done|]. intros _ ?. apply H.
Qed.

(** The components yielded by [safe_iter_context] and by
    [safe_iter_descendants], the registry they leave and the way they end
    are those of [safe_iter] without a filter. *)
Lemma context_walks_same_nodes hp fuel :
  forall elem L,
    same_nodes (safe_iter_context hp fuel elem L) (safe_iter hp fuel None elem L) /\
    same_nodes (safe_iter_descendants hp fuel elem L) (safe_iter hp fuel None elem L).
Proof.
  induction fuel as [|fuel IH]; intros elem L; [done|].
  destruct (hp !! elem) as [e|] eqn:E.
  - rewrite (safe_iter_context_S _ _ _ _ _ E), (safe_iter_descendants_S _ _ _ _ _ E),
      (safe_iter_None_S _ _ _ _ _ E). cbv zeta.
    split.
    + destruct (same_nodes_for_each (children e)
        (context_child hp (safe_iter_context hp fuel))
        (context_child hp (safe_iter hp fuel None)) L) as (Hy & Hr & Ho).
      { intros c L'. apply same_nodes_context_child. intros c' L''. apply IH. }
      repeat split; try done. cbn [yielded].
      change (INode elem :: ?l) with ([INode elem] ++ l).
      rewrite !nodes_of_app, nodes_of_text, nodes_of_attr, Hy. reflexivity.
    + destruct (same_nodes_for_each (children e)
        (context_child hp (safe_iter_descendants hp fuel))
        (context_child hp (safe_iter hp fuel None)) L) as (Hy & Hr & Ho).
      { intros c L'. apply same_nodes_context_child. intros c' L''. apply IH. }
      repeat split; try done. cbn [yielded].
      change (INode elem :: ?l) with ([INode elem] ++ l).
      rewrite !nodes_of_app, nodes_of_text, Hy. reflexivity.
  - destruct (walk_dangling hp fuel None elem L E) as (-> & -> & ->). done.
Qed.

(** ** Termination *)

Lemma closed_heap_spec hp p n c :
  closed_heap hp = true -> hp !! p = Some n -> c ∈ children n -> c < length hp.
Proof.
  unfold closed_heap. rewrite forallb_forall. intros H Hp Hc.
  assert (In n hp) as Hn by (apply list_elem_of_In; eapply list_elem_of_lookup_2; eauto).
  specialize (H n Hn). rewrite forallb_forall in H.
  apply list_elem_of_In in Hc. apply H in Hc. by apply Nat.ltb_lt.
Qed.

Lemma global_ranked_spec hp rk p n c :
  global_ranked hp rk = true -> hp !! p = Some n -> is_global n = true ->
  c ∈ children n -> glob hp c = true -> rk c < rk p.
Proof.
  unfold global_ranked. rewrite forallb_forall. intros H Hp Hg Hc Hgc.
  assert (In p (seq 0 (length hp))) as Hin.
  { apply in_seq. apply lookup_lt_Some in Hp. lia. }
  specialize (H p Hin). unfold glob at 1 in H. rewrite Hp, Hg in H. simpl in H.
  rewrite forallb_forall in H. apply list_elem_of_In in Hc.
  specialize (H c Hc). rewrite Hgc in H. simpl in H. by apply Nat.ltb_lt.
Qed.

Lemma rank_below_bound hp rk c : c < length hp -> rk c < rank_bound hp rk.
Proof.
  intros Hc. unfold rank_bound.
  apply Nat.lt_succ_r, max_list_elem_of_le. apply list_elem_of_fmap. exists c. split; [done|].
  apply elem_of_seq. lia.
Qed.

Lemma free_append hp L c :
  c < length hp -> c ∉ L -> S (free hp (L ++ [c])) ≤ free hp L.
Proof.
  intros Hc Hn. unfold free.
  change (S (length (list_difference (seq 0 (length hp)) (L ++ [c]))))
    with (length (c :: list_difference (seq 0 (length hp)) (L ++ [c]))).
  apply submseteq_length, NoDup_submseteq.
  - constructor.
    + rewrite list_elem_of_difference. intros [_ H]. apply H.
      apply elem_of_app. right. apply list_elem_of_here.
    + apply NoDup_list_difference, NoDup_seq.
  - intros x Hx. apply list_elem_of_difference.
    apply elem_of_cons in Hx as [->|Hx].
    + split; [apply elem_of_seq; lia | exact Hn].
    + apply list_elem_of_difference in Hx as [Hx1 Hx2]. split; [exact Hx1|].
      intros Hx3. apply Hx2, elem_of_app. by left.
Qed.

Section Termination.

Variable hp : heap.
Variable rk : handle -> nat.
Hypothesis Hclosed : closed_heap hp = true.
Hypothesis Hranked : global_ranked hp rk = true.

Lemma good_bind {A B} (m : Gen A) (k : A -> Gen B) L b :
  good hp b (m L) ->
  (forall a, outcome (m L) = Ret a -> good hp b (k a (registry (m L)))) ->
  good hp b (bind m k L).
Proof.
  intros [Hm1 Hm2] Hk. unfold bind.
  destruct (outcome (m L)) as [a| | |] eqn:E; try discriminate.
  - destruct (Hk a eq_refl) as [H1 H2]. by split.
  - by split.
Qed.

Lemma good_weaken {A} b b' (r : Run A) : good hp b r -> b ≤ b' -> good hp b' r.
Proof. intros [H1 H2] ?. split; [done | lia]. Qed.

Lemma tag_test_registry tag e L : registry (tag_test tag e L) = L.
Proof.
  unfold tag_test. destruct tag as [t|]; [|done]. by destruct (match_ e t None).
Qed.

Lemma tag_test_ended tag e L : ended (outcome (tag_test tag e L)) = true.
Proof.
  unfold tag_test. destruct tag as [t|]; [|done]. by destruct (match_ e t None).
Qed.

Lemma safe_iter_good tag fuel :
  forall elem L, elem < length hp -> enough_fuel hp rk L elem ≤ fuel ->
  good hp (free hp L) (safe_iter hp fuel tag elem L).
Proof.
  induction fuel as [|fuel IH]; intros elem L Helem Hfuel.
  { unfold enough_fuel in Hfuel. lia. }
  destruct (lookup_lt_is_Some_2 hp elem Helem) as [e He].
  rewrite (safe_iter_S _ _ _ _ _ _ He).
  apply good_bind.
  { split; [apply tag_test_ended | by rewrite tag_test_registry]. }
  intros b _. rewrite tag_test_registry.
  apply good_bind.
  { destruct b; simpl; by split. }
  intros _ _.
  replace (registry (when b (yield_ (INode elem)) L)) with L by (by destruct b).
  assert (forall cs L1, (forall c, c ∈ cs -> c ∈ children e) ->
            free hp L1 ≤ free hp L ->
            good hp (free hp L1)
              (for_each cs (iter_child hp (safe_iter hp fuel tag) tag e) L1)) as Hloop.
  { induction cs as [|c cs IHcs]; intros L1 Hsub HL1.
    { by split. }
    rewrite for_each_cons.
    assert (c < length hp) as Hc.
    { eapply closed_heap_spec; eauto. apply Hsub, list_elem_of_here. }
    destruct (lookup_lt_is_Some_2 hp c Hc) as [cn Hcn].
    assert (good hp (free hp L1) (iter_child hp (safe_iter hp fuel tag) tag e c L1)) as Hstep.
    { rewrite (iter_child_S _ _ _ _ _ _ _ Hcn).
      destruct (is_global cn) eqn:Hg.
      - apply IH; [exact Hc|].
        unfold enough_fuel in *.
        assert (glob hp c = true) as Hgc by (unfold glob; by rewrite Hcn).
        assert (level hp rk c < level hp rk elem).
        { unfold level at 1. rewrite Hgc. unfold level, glob. rewrite He.
          destruct (is_global e) eqn:Hge.
          - eapply global_ranked_spec; eauto. apply Hsub, list_elem_of_here.
          - by apply rank_below_bound. }
        nia.
      - destruct (ref cn).
        + apply good_bind.
          { split; [apply tag_test_ended | by rewrite tag_test_registry]. }
          intros b' _. rewrite tag_test_registry. destruct b'; simpl; by split.
        + rewrite bind_get_registry. destruct (py_in c L1) eqn:Hin; [by split|].
          apply py_in_false in Hin.
          pose proof (free_append hp L1 c Hc Hin) as Hfree.
          apply good_weaken with (b := free hp (L1 ++ [c])); [|lia].
          rewrite bind_append_registry.
          apply IH; [exact Hc|].
          unfold enough_fuel in *.
          assert (level hp rk c = rank_bound hp rk) as ->
            by (unfold level, glob; by rewrite Hcn, Hg).
          nia. }
    apply good_bind; [exact Hstep|].
    intros _ _. destruct Hstep as [_ Hle].
    eapply good_weaken; [apply IHcs|]; try lia.
    intros c' Hc'. apply Hsub, list_elem_of_further, Hc'. }
  apply Hloop; [auto | lia].
Qed.

End Termination.

Lemma never_raises_bind {A B} (m : Gen A) (k : A -> Gen B) :
  never_raises m -> (forall a, never_raises (k a)) -> never_raises (bind m k).
Proof.
  intros Hm Hk L e. unfold bind. specialize (Hm L).
  destruct (outcome (m L)) as [a| e'| |] eqn:E; cbn [outcome]; try done.
  - apply Hk.
  - by destruct (Hm e').
Qed.

Lemma never_raises_for_each {A} (xs : list A) body :
  (forall x, never_raises (body x)) -> never_raises (for_each xs body).
Proof.
  intros H. induction xs as [|x xs IH]; [done|].
  apply never_raises_bind; auto.
Qed.

Lemma context_child_no_raise hp rec c :
  (forall c', never_raises (rec c')) -> never_raises (context_child hp rec c).
Proof.
  intros H. unfold context_child. apply never_raises_bind.
  { intros L e. unfold deref. by destruct (hp !! c). }
  intros cn. destruct (is_global cn); [apply H|].
  destruct (ref cn); [done|].
  apply never_raises_bind; [done|]. intros L.
  destruct (py_in c L); [done|]. apply never_raises_bind; [done|]. intros _. apply H.
Qed.

Lemma safe_iter_None_no_raise hp fuel elem :
  never_raises (safe_iter hp fuel None elem).
Proof.
  revert elem. induction fuel as [|fuel IH]; intros elem L e; [done|].
  destruct (hp !! elem) as [n|] eqn:E.
  - rewrite (safe_iter_None_S _ _ _ _ _ E). cbv zeta. cbn [outcome].
    apply never_raises_for_each. intros c. by apply context_child_no_raise.
  - by destruct (walk_dangling hp fuel None elem L E) as (-> & _).
Qed.

Lemma ended_no_raise (s : status unit) :
  ended s = true -> (forall e, s <> Raise e) -> s = Ret tt.
Proof. destruct s as [[]|e| |]; try done. intros _ H. by destruct (H e). Qed.

(** C2, as the code has it.  When the child edges between global
    components admit a ranking (no cycle of child edges runs through
    globals only), every traversal from a component of a closed store
    ends once the fuel passes a bound: [iter] is exhausted or raises the
    [IndexError] of an empty filter, the two context walks are exhausted. *)
Theorem traversal_terminates hp rk root tag :
  closed_heap hp = true ->
  global_ranked hp rk = true ->
  root < length hp ->
  exists n, forall fuel, n ≤ fuel ->
    ended (outcome (iter hp fuel root tag)) = true /\
    outcome (_iter_descendants hp fuel root) = Ret tt /\
    outcome (_iter_context hp fuel root) = Ret tt.
Proof.
  intros Hc Hr Hroot. exists (enough_fuel hp rk [] root). intros fuel Hfuel.
  assert (outcome (safe_iter hp fuel None root []) = Ret tt) as Hnone.
  { apply ended_no_raise.
    - by apply (safe_iter_good hp rk Hc Hr None fuel root []).
    - intros e. apply safe_iter_None_no_raise. }
  destruct (context_walks_same_nodes hp fuel root [])
    as ((_ & _ & Hctx) & (_ & _ & Hdesc)).
  repeat split.
  - unfold iter. by apply (safe_iter_good hp rk Hc Hr).
  - unfold _iter_descendants. by rewrite Hdesc.
  - unfold _iter_context. by rewrite Hctx.
Qed.

Lemma traversal_terminates_witness :
  closed_heap hp_mixed = true /\ global_ranked hp_mixed rk_mixed = true /\
  0 < length hp_mixed /\
  exists n, forall fuel, n ≤ fuel ->
    ended (outcome (iter hp_mixed fuel 0 None)) = true /\
    outcome (_iter_descendants hp_mixed fuel 0) = Ret tt /\
    outcome (_iter_context hp_mixed fuel 0) = Ret tt.
Proof.
  assert (0 < length hp_mixed) as Hroot by (cbn; lia).
  split; [reflexivity|]. split; [reflexivity|]. split; [exact Hroot|].
  apply (traversal_terminates hp_mixed rk_mixed 0 None eq_refl eq_refl Hroot).
Defined.

Lemma global_loop_out_of_fuel fuel :
  forall L, outcome (safe_iter hp_global_loop fuel None 0 L) = OutOfFuel.
Proof.
  induction fuel as [|fuel IH]; intros L; [done|].
  rewrite (safe_iter_None_S hp_global_loop fuel 0 _ L eq_refl).
  cbv zeta. cbn [outcome children]. rewrite for_each_cons.
  unfold bind. unfold context_child at 1. unfold bind at 1.
  rewrite (deref_Some hp_global_loop 0 _ L eq_refl).
  cbn [outcome registry is_global]. by rewrite IH.
Qed.

(** C2 as stated fails: from a global component that is its own child the
    walk never ends, whatever the fuel. *)
Lemma not_every_traversal_terminates :
  ~ (forall (hp : heap) root, closed_heap hp = true -> root < length hp ->
       exists fuel, ended (outcome (iter hp fuel root None)) = true).
Proof.
  intros H.
  destruct (H hp_global_loop 0 eq_refl (Nat.lt_0_succ 0)) as [fuel Hf].
  unfold iter in Hf. by rewrite global_loop_out_of_fuel in Hf.
Qed.

(** ** The tag predicate *)

Lemma starts_with_brace_cons c rest :
  starts_with_brace (String c rest) = Ascii.eqb c "{"%char.
Proof.
  unfold starts_with_brace. cbn [String.prefix].
  destruct (ascii_dec "{"%char c) as [<-|Hne].
  - by destruct rest.
  - symmetry. apply Ascii.eqb_neq. congruence.
Qed.

Lemma tag_test_unqualified tag e L :
  tag <> ""%string -> starts_with_brace tag = false ->
  tag_test (Some tag) e L = MkRun [] L (Ret false).
Proof.
  intros Hne Hb. destruct tag as [|c rest]; [done|].
  rewrite starts_with_brace_cons in Hb. unfold tag_test, match_. by rewrite Hb.
Qed.

Lemma safe_iter_unqualified hp tag fuel :
  tag <> ""%string -> starts_with_brace tag = false ->
  forall elem, yields_only (fun _ => False) (safe_iter hp fuel (Some tag) elem).
Proof.
  intros Hne Hb. induction fuel as [|fuel IH]; intros elem L; [constructor|].
  destruct (hp !! elem) as [e|] eqn:E.
  - rewrite (safe_iter_S _ _ _ _ _ _ E).
    rewrite (bind_Ret _ _ _ _ _ _ (tag_test_unqualified tag e L Hne Hb)).
    cbn [yielded app when]. rewrite bind_ret_l.
    apply yields_only_for_each. intros c L1.
    destruct (hp !! c) as [cn|] eqn:Ec.
    + rewrite (iter_child_S _ _ _ _ _ _ _ Ec).
      destruct (is_global cn); [apply IH|]. destruct (ref cn).
      * rewrite (bind_Ret _ _ _ _ _ _ (tag_test_unqualified tag e L1 Hne Hb)).
        constructor.
      * rewrite bind_get_registry. destruct (py_in c L1); [constructor|].
        rewrite bind_append_registry. apply IH.
    + unfold iter_child, bind, deref. rewrite Ec. constructor.
  - destruct (walk_dangling hp fuel (Some tag) elem L E) as (-> & _). constructor.
Qed.

(** C10, as the code has it.  For a non-empty tag that does not start with
    a brace, [match] returns a comparison only when [default_namespace] is
    true (not [None], not empty), and then the comparison is with the tag
    and with the tag qualified by that namespace; otherwise it returns
    [None] whatever the name of the node, so that [iter] filtered by such a
    tag (other than the wildcard) yields nothing at all. *)
Theorem match_unqualified self tag ns :
  tag <> ""%string ->
  starts_with_brace tag = false ->
  (forall b, match_ self tag ns = inr (PyBool b) ->
     exists s, ns = Some s /\ s <> ""%string /\
       b = (String.eqb (name self) tag || String.eqb (name self) (qualified s tag))) /\
  (ns_truthy ns = false -> match_ self tag ns = inr PyNone) /\
  (tag <> "*"%string ->
     forall hp fuel root, yielded (iter hp fuel root (Some tag)) = []).
Proof.
  intros Hne Hb. destruct tag as [|c rest] eqn:Etag; [done|].
  pose proof Hb as Hb'. rewrite starts_with_brace_cons in Hb'.
  repeat split.
  - intros b. unfold match_. rewrite Hb'.
    destruct ns as [s|]; cbn [ns_truthy]; [|done].
    destruct (String.eqb s "") eqn:Es; cbn [negb]; [done|].
    intros [= <-]. exists s. repeat split; try done.
    by apply String.eqb_neq.
  - intros Hns. unfold match_. by rewrite Hb', Hns.
  - intros Hstar hp fuel root. unfold iter.
    destruct (String.eqb (String c rest) "*") eqn:Es.
    { apply String.eqb_eq in Es. done. }
    pose proof (safe_iter_unqualified hp (String c rest) fuel Hne Hb root []) as H.
    destruct (yielded (safe_iter hp fuel (Some (String c rest)) root [])); [done|].
    by apply Forall_cons in H as [[] _].
Qed.

Lemma match_unqualified_witness :
  "a"%string <> ""%string /\ starts_with_brace "a" = false /\
  match_ (leaf "a") "a" None = inr PyNone /\
  yielded (iter hp_doc 3 0 (Some "a"%string)) = [].
Proof.
  assert ("a"%string <> ""%string) as H1 by discriminate.
  assert (starts_with_brace "a" = false) as H2 by reflexivity.
  destruct (match_unqualified (leaf "a") "a" None H1 H2) as (_ & Hnone & Hiter).
  split; [exact H1|]. split; [exact H2|].
  split; [apply Hnone; reflexivity | apply Hiter; discriminate].
Defined.

(** C10 as stated fails on the empty tag: it does not start with a brace,
    and [tag[0]] raises [IndexError] instead of returning [None]. *)
Lemma match_empty_tag_raises :
  ~ (forall self tag ns,
       starts_with_brace tag = false -> ns_truthy ns = false ->
       match_ self tag ns = inr PyNone).
Proof.
  intros H. specialize (H (leaf "a") ""%string None eq_refl eq_refl). discriminate.
Qed.

(** ** The filter on reference children *)

(** C1 fails on the code.  In [hp_ref] the local root [{u}a] has the
    reference child [{u}b].  Filtering by [{u}a] yields the child although
    it does not match; filtering by [{u}b] does not yield it although it
    matches: the source tests [elem.match(tag)], the parent, where
    [iterchildren] tests [child.match(tag)]. *)
Theorem reference_child_filtered_by_parent :
  iter hp_ref 2 0 (Some "{u}a"%string) = MkRun [INode 0; INode 1] [] (Ret tt) /\
  (exists n, hp_ref !! 1 = Some n /\ match_ n "{u}a" None = inr (PyBool false)) /\
  iter hp_ref 2 0 (Some "{u}b"%string) = MkRun [] [] (Ret tt) /\
  (exists n, hp_ref !! 1 = Some n /\ match_ n "{u}b" None = inr (PyBool true)).
Proof. repeat split; eexists; split; reflexivity. Qed.

(** ** A local root that is its own descendant *)

(** The start is yielded before the loop over its children; met there as
    its own child, the local component of [hp_local_loop] is put in the
    registry and walked once, and skipped at the next encounter. *)
Example local_root_own_child :
  iter hp_local_loop 3 0 None = MkRun [INode 0; INode 0] [0] (Ret tt) /\
  _iter_descendants hp_local_loop 3 0 = MkRun [INode 0; INode 0] [0] (Ret tt) /\
  _iter_context hp_local_loop 3 0 = MkRun [INode 0; INode 0] [0] (Ret tt).
Proof. repeat split. Qed.

(** ** What the registry holds *)

Lemma traversal_same_nodes hp fuel root r :
  traversal hp fuel root r -> same_nodes r (iter hp fuel root None).
Proof.
  intros [ | | ]; [done | |].
  - apply (context_walks_same_nodes hp fuel root []).
  - apply (context_walks_same_nodes hp fuel root []).
Qed.

Lemma bind_registry_inv {A B} (I : list handle -> Prop) (m : Gen A) (k : A -> Gen B) L :
  I (registry (m L)) ->
  (forall a, outcome (m L) = Ret a -> I (registry (k a (registry (m L))))) ->
  I (registry (bind m k L)).
Proof.
  intros Hm Hk. unfold bind.
  destruct (outcome (m L)) as [a| | |] eqn:E; cbn [registry]; auto.
Qed.

Lemma for_each_registry_inv {A} (I : list handle -> Prop) (xs : list A) body :
  (forall x L, I L -> I (registry (body x L))) ->
  forall L, I L -> I (registry (for_each xs body L)).
Proof.
  intros H. induction xs as [|x xs IH]; intros L HL; [done|].
  rewrite for_each_cons. apply bind_registry_inv; auto.
Qed.

Lemma iter_child_registry hp rec tag e c :
  (forall c' L, Forall (plain_local hp) L -> Forall (plain_local hp) (registry (rec c' L))) ->
  forall L, Forall (plain_local hp) L ->
    Forall (plain_local hp) (registry (iter_child hp rec tag e c L)).
Proof.
  intros Hrec L HL. destruct (hp !! c) as [cn|] eqn:Ec.
  - rewrite (iter_child_S _ _ _ _ _ _ _ Ec).
    destruct (is_global cn) eqn:Hg; [by apply Hrec|].
    destruct (ref cn) eqn:Hr.
    + apply bind_registry_inv; rewrite tag_test_registry; [done|].
      intros b _. by destruct b.
    + rewrite bind_get_registry. destruct (py_in c L); [done|].
      rewrite bind_append_registry. apply Hrec.
      apply Forall_app. split; [done|]. constructor; [|constructor].
      by exists cn.
  - unfold iter_child, bind, deref. by rewrite Ec.
Qed.

(** Only ordinary local components are ever put in the registry. *)
Lemma safe_iter_registry hp tag fuel :
  forall elem L, Forall (plain_local hp) L ->
    Forall (plain_local hp) (registry (safe_iter hp fuel tag elem L)).
Proof.
  induction fuel as [|fuel IH]; intros elem L HL; [done|].
  destruct (hp !! elem) as [e|] eqn:E.
  - rewrite (safe_iter_S _ _ _ _ _ _ E).
    apply bind_registry_inv; rewrite tag_test_registry; [done|].
    intros b _. apply bind_registry_inv; [by destruct b|].
    intros _ _. replace (registry (when b (yield_ (INode elem)) L)) with L
      by (by destruct b).
    apply for_each_registry_inv; [|done].
    intros c L1. by apply iter_child_registry.
  - by destruct (walk_dangling hp fuel tag elem L E) as (-> & _).
Qed.

Lemma iter_registry hp fuel root tag :
  Forall (plain_local hp) (registry (iter hp fuel root tag)).
Proof. apply safe_iter_registry. constructor. Qed.

Lemma traversal_registry hp fuel root r :
  traversal hp fuel root r -> Forall (plain_local hp) (registry r).
Proof.
  intros Hr. destruct (traversal_same_nodes _ _ _ _ Hr) as (_ & -> & _).
  apply iter_registry.
Qed.

Lemma traversal_no_raise hp fuel root r e :
  traversal hp fuel root r -> outcome r <> Raise e.
Proof.
  intros Hr. destruct (traversal_same_nodes _ _ _ _ Hr) as (_ & _ & ->).
  apply safe_iter_None_no_raise.
Qed.

Lemma context_child_S hp rec child c L :
  hp !! child = Some c ->
  context_child hp rec child L =
  (if is_global c then rec child
   else match ref c with
        | Some _ => yield_ (INode child)
        | None => bind get_registry (fun L =>
                    if py_in child L then ret tt
                    else bind (append_registry child) (fun _ => rec child))
        end) L.
Proof.
  intros E. unfold context_child. unfold bind at 1. by rewrite (deref_Some _ _ _ _ E).
Qed.





(** ** Every local child that is met is expanded *)

Lemma bind_outcome_Ret {A B} (m : Gen A) (k : A -> Gen B) L b :
  outcome (bind m k L) = Ret b ->
  exists a, outcome (m L) = Ret a /\ outcome (k a (registry (m L))) = Ret b.
Proof.
  unfold bind. destruct (outcome (m L)) as [a| | |] eqn:E; try done.
  intros H. by exists a.
Qed.

Lemma bind_of_Ret {A B} (m : Gen A) (k : A -> Gen B) L a :
  outcome (m L) = Ret a ->
  bind m k L =
  MkRun (yielded (m L) ++ yielded (k a (registry (m L))))
        (registry (k a (registry (m L)))) (outcome (k a (registry (m L)))).
Proof. intros E. unfold bind. by rewrite E. Qed.

Lemma elem_of_nodes_of h l : h ∈ nodes_of l <-> INode h ∈ l.
Proof.
  unfold nodes_of. rewrite list_elem_of_omap. split.
  - intros (i & Hi & E). destruct i; try done. by injection E as ->.
  - intros H. by exists (INode h).
Qed.

Lemma covers_seq hp L (r1 r2 : Run unit) :
  covers hp L r1 -> covers hp (registry r1) r2 ->
  covers hp L (MkRun (yielded r1 ++ yielded r2) (registry r2) (outcome r2)).
Proof.
  intros [(new1 & E1 & H1) C1] [(new2 & E2 & H2) C2]. split; cbn [yielded registry].
  - exists (new1 ++ new2). split; [by rewrite E2, E1, app_assoc|].
    intros x Hx. rewrite nodes_of_app. apply elem_of_app.
    apply elem_of_app in Hx as [Hx|Hx]; auto.
  - intros p n c Hp Hexp Hn Hc Hpl. rewrite nodes_of_app in Hp.
    apply elem_of_app in Hp as [Hp|Hp].
    + rewrite E2. apply elem_of_app. left. eapply C1; eauto.
    + eapply C2; eauto.
Qed.

Lemma covers_nothing hp L : covers hp L (MkRun [] L (Ret tt)).
Proof.
  split; cbn [yielded registry].
  - exists []. split; [by rewrite app_nil_r|]. intros x Hx. by apply elem_of_nil in Hx.
  - intros p n c Hp. by apply elem_of_nil in Hp.
Qed.

Lemma safe_iter_covers hp fuel :
  forall elem L,
    let r := safe_iter hp fuel None elem L in
    outcome r = Ret tt ->
    covers hp L r /\ elem ∈ nodes_of (yielded r) /\
    (forall n c, hp !! elem = Some n -> c ∈ children n -> plain_local hp c ->
       c ∈ registry r).
Proof.
  induction fuel as [|fuel IH]; intros elem L r Hout; [done|].
  subst r. destruct (hp !! elem) as [e|] eqn:E.
  2: { by destruct (walk_dangling hp fuel None elem L E) as (Hd & _); rewrite Hd in Hout. }
  rewrite (safe_iter_None_S _ _ _ _ _ E) in *. cbv zeta in *. cbn [outcome] in Hout.
  set (body := context_child hp (safe_iter hp fuel None)) in *.
  assert (forall c L1, outcome (body c L1) = Ret tt ->
            covers hp L1 (body c L1) /\ (plain_local hp c -> c ∈ registry (body c L1)))
    as Hstep.
  { intros c L1 Hc. unfold body in *. destruct (hp !! c) as [cn|] eqn:Ec.
    2: { unfold context_child, bind, deref in Hc. by rewrite Ec in Hc. }
    rewrite (context_child_S _ _ _ _ _ Ec) in *.
    destruct (is_global cn) eqn:Hg.
    { destruct (IH c L1 Hc) as (Hcov & _ & _). split; [done|].
      intros (n & Hn & Hn' & _). congruence. }
    destruct (ref cn) as [t|] eqn:Hr.
    { split.
      - split; cbn [yielded registry].
        + exists []. split; [by rewrite app_nil_r|]. intros x Hx. by apply elem_of_nil in Hx.
        + intros p n c' Hp Hexp. apply list_elem_of_singleton in Hp as ->.
          unfold expands in Hexp. by rewrite Ec, Hg, Hr in Hexp.
      - intros (n & Hn & _ & Hn'). congruence. }
    rewrite bind_get_registry in *. destruct (py_in c L1) eqn:Hin.
    { split; [apply covers_nothing|]. intros _. by apply py_in_spec. }
    rewrite bind_append_registry in *.
    destruct (IH c (L1 ++ [c]) Hc) as ([(new & En & Hnew) Hcl] & Hself & _).
    split.
    - split; [|done]. exists (c :: new). split.
      + by rewrite En, <- app_assoc.
      + intros x Hx. apply elem_of_cons in Hx as [->|Hx]; auto.
    - intros _. rewrite En. apply elem_of_app. left. apply elem_of_app. right.
      apply list_elem_of_here. }
  assert (forall cs L1,
            outcome (for_each cs body L1) = Ret tt ->
            covers hp L1 (for_each cs body L1) /\
            (forall c, c ∈ cs -> plain_local hp c -> c ∈ registry (for_each cs body L1)))
    as Hloop.
  { induction cs as [|c cs IHcs]; intros L1 Hcs.
    { split; [apply covers_nothing|]. intros c Hc. by apply elem_of_nil in Hc. }
    rewrite for_each_cons in *.
    destruct (bind_outcome_Ret _ _ _ _ Hcs) as ([] & H1 & H2).
    rewrite (bind_of_Ret _ _ _ _ H1).
    destruct (Hstep c L1 H1) as (Hcov1 & Hin1).
    destruct (IHcs _ H2) as (Hcov2 & Hin2).
    split; [by apply covers_seq|]. cbn [registry].
    intros c' Hc' Hpl. apply elem_of_cons in Hc' as [->|Hc']; [|by apply Hin2].
    destruct Hcov2 as [(new & -> & _) _]. apply elem_of_app. left. by apply Hin1. }
  destruct (Hloop (children e) L Hout) as ([(new & En & Hnew) Hcl] & Hkids).
  cbn [yielded registry].
  change (INode elem :: ?l) with ([INode elem] ++ l). rewrite nodes_of_app.
  change (nodes_of [INode elem]) with [elem].
  split; [split|split].
  - exists new. split; [done|]. intros x Hx. apply list_elem_of_further. by apply Hnew.
  - intros p n c Hp Hexp Hn Hc Hpl. apply elem_of_cons in Hp as [->|Hp].
    + assert (n = e) as -> by congruence. by apply Hkids.
    + eapply Hcl; eauto.
  - apply list_elem_of_here.
  - intros n c Hn Hc Hpl. assert (n = e) as -> by congruence. by apply Hkids.
Qed.

Lemma traversal_encountered hp fuel root r c :
  traversal hp fuel root r -> outcome r = Ret tt ->
  encountered hp root r c -> plain_local hp c ->
  c ∈ nodes_of (yielded r) /\ c ∈ registry r.
Proof.
  intros Htr Hout (p & e & Hp & Hroot & He & Hc) Hpl.
  destruct (traversal_same_nodes _ _ _ _ Htr) as (Hy & Hr & Ho).
  rewrite Hy, Hr in *. rewrite Ho in Hout. unfold iter in *.
  destruct (safe_iter_covers hp fuel root [] Hout) as ([(new & En & Hnew) Hcl] & _ & Hkids).
  assert (c ∈ registry (safe_iter hp fuel None root [])) as Hreg.
  { destruct Hroot as [->|Hexp]; [by eapply Hkids|]. eapply Hcl; eauto. }
  split; [|done]. apply Hnew. by rewrite En in Hreg.
Qed.



(** ** Trees without sharing: the walk is the pre-order traversal *)

Lemma depth_kid k ks : k ∈ ks -> depth k ≤ max_list (map depth ks).
Proof.
  intros Hk. apply max_list_elem_of_le.
  apply list_elem_of_In, in_map, list_elem_of_In, Hk.
Qed.

Lemma shape_Rose hp h ks :
  shape hp (Rose h ks) = true ->
  exists n, hp !! h = Some n /\ is_global n = false /\ ref n = None /\
            children n = map root_of ks /\ forall k, k ∈ ks -> shape hp k = true.
Proof.
  cbn [shape]. destruct (hp !! h) as [n|]; [|done].
  rewrite !andb_true_iff. intros [[[Hg Hr] Hc] Hks].
  exists n. repeat split.
  - by apply negb_true_iff.
  - by destruct (ref n).
  - by apply bool_decide_eq_true in Hc.
  - intros k Hk. rewrite forallb_forall in Hks. by apply Hks, list_elem_of_In.
Qed.

Lemma safe_iter_tree hp fuel :
  forall t L,
    shape hp t = true -> depth t ≤ fuel ->
    NoDup (flat_map preorder (kids_of t)) ->
    (forall x, x ∈ flat_map preorder (kids_of t) -> x ∉ L) ->
    safe_iter hp fuel None (root_of t) L =
    MkRun (INode <$> preorder t) (L ++ flat_map preorder (kids_of t)) (Ret tt).
Proof.
  induction fuel as [|fuel IH]; intros [h ks] L Hshape Hdepth Hnd Hfresh.
  { cbn [depth] in Hdepth. lia. }
  destruct (shape_Rose _ _ _ Hshape) as (n & Hn & Hg & Hr & Hch & Hks).
  cbn [root_of kids_of depth preorder] in *.
  rewrite (safe_iter_None_S _ _ _ _ _ Hn). cbv zeta. rewrite Hch.
  assert (forall ks' L1,
            (forall k, k ∈ ks' -> shape hp k = true /\ depth k ≤ fuel) ->
            NoDup (flat_map preorder ks') ->
            (forall x, x ∈ flat_map preorder ks' -> x ∉ L1) ->
            for_each (map root_of ks') (context_child hp (safe_iter hp fuel None)) L1 =
            MkRun (INode <$> flat_map preorder ks') (L1 ++ flat_map preorder ks') (Ret tt))
    as Hloop.
  { clear -IH. induction ks' as [|[c kc] ks' IHks]; intros L1 Hall Hnd Hfresh.
    { cbn. by rewrite app_nil_r. }
    cbn [map root_of flat_map preorder] in *.
    destruct (Hall (Rose c kc) (list_elem_of_here _ _)) as [Hsh Hd].
    destruct (shape_Rose _ _ _ Hsh) as (cn & Hcn & Hg & Hr & _ & _).
    apply NoDup_app in Hnd as (Hnd1 & Hdisj & Hnd2).
    apply NoDup_cons in Hnd1 as [Hc Hnd1].
    rewrite for_each_cons.
    assert (context_child hp (safe_iter hp fuel None) c L1 =
            MkRun (INode <$> (c :: flat_map preorder kc))
                  (L1 ++ c :: flat_map preorder kc) (Ret tt)) as Hstep.
    { rewrite (context_child_S _ _ _ _ _ Hcn), Hg, Hr, bind_get_registry.
      assert (py_in c L1 = false) as ->.
      { apply py_in_false, Hfresh, list_elem_of_here. }
      rewrite bind_append_registry.
      pose proof (IH (Rose c kc) (L1 ++ [c]) Hsh Hd Hnd1) as Hrec.
      cbn [root_of kids_of preorder] in Hrec. rewrite Hrec.
      - by rewrite <- app_assoc.
      - intros x Hx Hin. apply elem_of_app in Hin as [Hin|Hin].
        + eapply Hfresh; [|exact Hin]. apply list_elem_of_further, elem_of_app. by left.
        + apply list_elem_of_singleton in Hin as ->. done. }
    rewrite (bind_Ret _ _ _ _ _ _ Hstep).
    rewrite IHks.
    - cbn [yielded registry outcome]. by rewrite fmap_app, <- app_assoc.
    - intros k Hk. apply Hall. by apply list_elem_of_further.
    - done.
    - intros x Hx Hin. apply elem_of_app in Hin as [Hin|Hin].
      + eapply Hfresh; [|exact Hin].
        change (x ∈ (c :: flat_map preorder kc) ++ flat_map preorder ks').
        apply elem_of_app. by right.
      + by eapply Hdisj. }
  rewrite Hloop; [done| |done|done].
  intros k Hk. split; [by apply Hks|].
  pose proof (depth_kid k ks Hk). lia.
Qed.

Lemma preorder_size n : forall t, depth t ≤ n -> length (preorder t) = size t.
Proof.
  induction n as [|n IH]; intros [h ks] Hd; cbn [depth] in Hd; [lia|].
  cbn [preorder size length]. f_equal.
  assert (forall k, k ∈ ks -> depth k ≤ n) as Hks.
  { intros k Hk. pose proof (depth_kid k ks Hk). lia. }
  clear Hd. induction ks as [|k ks IHks]; [done|].
  cbn [flat_map map sum_list sum_list_with]. rewrite length_app, IHks.
  - rewrite IH; [done|]. apply Hks, list_elem_of_here.
  - intros k' Hk'. by apply Hks, list_elem_of_further.
Qed.

(** C7.  When the store below the root is a tree in which no component is
    global, none is a reference and none occurs twice, the walk without a
    filter yields exactly the components of the naive pre-order traversal,
    in the same order and therefore as many as the tree has nodes, and it
    ends as soon as the fuel covers the depth of the tree. *)
Theorem walk_is_preorder hp t fuel :
  shape hp t = true -> NoDup (preorder t) -> depth t ≤ fuel ->
  yielded (iter hp fuel (root_of t) None) = INode <$> preorder t /\
  outcome (iter hp fuel (root_of t) None) = Ret tt /\
  length (yielded (iter hp fuel (root_of t) None)) = size t /\
  forall r, traversal hp fuel (root_of t) r ->
    nodes_of (yielded r) = preorder t /\ outcome r = Ret tt.
Proof.
  intros Hshape Hnd Hd.
  assert (iter hp fuel (root_of t) None =
          MkRun (INode <$> preorder t) (flat_map preorder (kids_of t)) (Ret tt)) as Hrun.
  { unfold iter. rewrite (safe_iter_tree hp fuel t [] Hshape Hd); [done| |].
    - destruct t as [h ks]. cbn [preorder kids_of] in *. by apply NoDup_cons in Hnd as [_ ?].
    - intros x _ Hx. by apply elem_of_nil in Hx. }
  rewrite Hrun. cbn [yielded outcome]. repeat split.
  - by rewrite length_fmap, (preorder_size fuel).
  - destruct (traversal_same_nodes _ _ _ _ H) as (-> & _ & _).
    rewrite Hrun. apply nodes_of_fmap.
  - destruct (traversal_same_nodes _ _ _ _ H) as (_ & _ & ->). by rewrite Hrun.
Qed.

Lemma walk_is_preorder_witness :
  shape hp_doc tree_doc = true /\ NoDup (preorder tree_doc) /\ depth tree_doc ≤ 3 /\
  yielded (iter hp_doc 3 0 None) = INode <$> preorder tree_doc /\
  length (yielded (iter hp_doc 3 0 None)) = 7.
Proof.
  assert (NoDup (preorder tree_doc)) as Hnd.
  { apply (bool_decide_unpack _). reflexivity. }
  split; [reflexivity|]. split; [exact Hnd|]. split; [cbn; lia|].
  destruct (walk_is_preorder hp_doc tree_doc 3 eq_refl Hnd) as (H1 & _ & H2 & _);
    [cbn; lia|].
  split; [exact H1 | exact H2].
Defined.


(** ** A local child is yielded once, the root apart *)

Lemma occurrences_app c l k : occurrences c (l ++ k) = occurrences c l + occurrences c k.
Proof. apply count_occ_app. Qed.

Lemma occurrences_other c x : c <> x -> occurrences c [x] = 0.
Proof. intros H. unfold occurrences. cbn. destruct (Nat.eq_dec x c); congruence. Qed.

Lemma occurrences_NoDup c l :
  NoDup l -> occurrences c l = if bool_decide (c ∈ l) then 1 else 0.
Proof.
  intros Hnd. unfold occurrences. case_bool_decide as Hc.
  - apply NoDup_count_occ'; [by apply NoDup_ListNoDup | by apply list_elem_of_In].
  - apply count_occ_not_In. by rewrite <- list_elem_of_In.
Qed.

Lemma tally_seq hp L (r1 r2 : Run unit) :
  tally hp L [] r1 -> tally hp (registry r1) [] r2 ->
  tally hp L [] (MkRun (yielded r1 ++ yielded r2) (registry r2) (outcome r2)).
Proof.
  intros (new1 & E1 & N1 & C1) (new2 & E2 & N2 & C2).
  exists (new1 ++ new2). cbn [yielded registry]. repeat split.
  - by rewrite E2, E1, app_assoc.
  - auto.
  - intros c Hc. rewrite nodes_of_app, !occurrences_app, C1, C2 by done. cbn. lia.
Qed.

Lemma tally_nothing hp L : tally hp L [] (MkRun [] L (Ret tt)).
Proof. exists []. cbn [registry yielded]. by rewrite app_nil_r. Qed.

Lemma safe_iter_tally hp fuel :
  forall elem L,
    outcome (safe_iter hp fuel None elem L) = Ret tt ->
    tally hp L [elem] (safe_iter hp fuel None elem L).
Proof.
  induction fuel as [|fuel IH]; intros elem L Hout; [done|].
  destruct (hp !! elem) as [e|] eqn:E.
  2: { by destruct (walk_dangling hp fuel None elem L E) as (Hd & _); rewrite Hd in Hout. }
  rewrite (safe_iter_None_S _ _ _ _ _ E) in *. cbv zeta in *. cbn [outcome] in Hout.
  set (body := context_child hp (safe_iter hp fuel None)) in *.
  assert (forall c L1, outcome (body c L1) = Ret tt -> tally hp L1 [] (body c L1)) as Hstep.
  { intros c L1 Hc. unfold body in *. destruct (hp !! c) as [cn|] eqn:Ec.
    2: { unfold context_child, bind, deref in Hc. by rewrite Ec in Hc. }
    rewrite (context_child_S _ _ _ _ _ Ec) in *.
    destruct (is_global cn) eqn:Hg.
    { destruct (IH c L1 Hc) as (new & En & Hnd & Hcount).
      exists new. repeat split; try done.
      intros c' Hc'. rewrite Hcount by done. rewrite occurrences_other; [done|].
      intros ->. destruct Hc' as (n & Hn & Hn' & _). congruence. }
    destruct (ref cn) as [t|] eqn:Hr.
    { exists []. unfold yield_. cbn [registry yielded]. rewrite app_nil_r.
      repeat split; try done.
      intros c' Hc'. change (nodes_of [INode c]) with [c].
      rewrite occurrences_other; [done|].
      intros ->. destruct Hc' as (n & Hn & _ & Hn'). congruence. }
    rewrite bind_get_registry in *. destruct (py_in c L1) eqn:Hin.
    { apply tally_nothing. }
    rewrite bind_append_registry in *.
    destruct (IH c (L1 ++ [c]) Hc) as (new & En & Hnd & Hcount).
    exists (c :: new). repeat split.
    - by rewrite En, <- app_assoc.
    - intros HL1. apply Hnd. apply NoDup_app. repeat split; try done.
      + intros x Hx Hx'. apply list_elem_of_singleton in Hx' as ->.
        by apply py_in_false in Hin.
      + apply NoDup_singleton.
    - intros c' Hc'. rewrite Hcount by done.
      change (c :: new) with ([c] ++ new). by rewrite occurrences_app. }
  assert (forall cs L1, outcome (for_each cs body L1) = Ret tt ->
            tally hp L1 [] (for_each cs body L1)) as Hloop.
  { induction cs as [|c cs IHcs]; intros L1 Hcs; [apply tally_nothing|].
    rewrite for_each_cons in *.
    destruct (bind_outcome_Ret _ _ _ _ Hcs) as ([] & H1 & H2).
    rewrite (bind_of_Ret _ _ _ _ H1). apply tally_seq; auto. }
  destruct (Hloop (children e) L Hout) as (new & En & Hnd & Hcount).
  exists new. cbn [registry yielded]. repeat split; try done.
  intros c Hc. change (INode elem :: ?l) with ([INode elem] ++ l).
  rewrite nodes_of_app, occurrences_app, Hcount by done. done.
Qed.

(** In a traversal call that runs to its end the registry has no
    duplicate, and an ordinary local component is yielded once if it is the
    root, plus once if it was put in the registry. *)
Lemma traversal_tally hp fuel root r c :
  traversal hp fuel root r -> outcome r = Ret tt -> plain_local hp c ->
  NoDup (registry r) /\
  occurrences c (nodes_of (yielded r)) =
    (if bool_decide (c = root) then 1 else 0) +
    (if bool_decide (c ∈ registry r) then 1 else 0).
Proof.
  intros Htr Hout Hc.
  destruct (traversal_same_nodes _ _ _ _ Htr) as (Hy & Hr & Ho).
  rewrite Hy, Hr. rewrite Ho in Hout. unfold iter in *.
  destruct (safe_iter_tally hp fuel root [] Hout) as (new & En & Hnd & Hcount).
  specialize (Hnd (NoDup_nil_2)). split; [done|].
  rewrite Hcount by done. rewrite En in *. cbn [app] in *.
  rewrite (occurrences_NoDup c new Hnd). f_equal.
  unfold occurrences. cbn. destruct (Nat.eq_dec root c) as [->|Hne].
  - by rewrite bool_decide_eq_true_2.
  - by rewrite bool_decide_eq_false_2.
Qed.

(** So a local child other than the root, met during the traversal, is
    yielded exactly once. *)
Lemma local_child_yielded_once hp fuel root r c :
  traversal hp fuel root r -> outcome r = Ret tt ->
  plain_local hp c -> c <> root -> encountered hp root r c ->
  occurrences c (nodes_of (yielded r)) = 1.
Proof.
  intros Htr Hout Hc Hne Henc.
  destruct (traversal_tally hp fuel root r c Htr Hout Hc) as [_ ->].
  destruct (traversal_encountered hp fuel root r c Htr Hout Henc Hc) as [_ Hreg].
  by rewrite bool_decide_eq_false_2, bool_decide_eq_true_2.
Qed.

(** ** Sample runs *)

Example iter_hp_mixed :
  iter hp_mixed 21 0 None =
  MkRun [INode 0; INode 1; INode 4; INode 3; INode 1; INode 5; INode 5;
         INode 2; INode 1; INode 5] [4; 3] (Ret tt).
Proof. reflexivity. Qed.

Example iter_context_hp_mixed :
  _iter_context hp_mixed 21 0 =
  MkRun [INode 0; INode 1; IText "t"; IAttr "k" "v"; INode 4; INode 3;
         INode 1; IText "t"; IAttr "k" "v"; INode 5; INode 5; INode 2;
         INode 1; IText "t"; IAttr "k" "v"; INode 5] [4; 3] (Ret tt).
Proof. reflexivity. Qed.

Example iter_descendants_hp_mixed :
  _iter_descendants hp_mixed 21 0 =
  MkRun [INode 0; INode 1; IText "t"; INode 4; INode 3; INode 1; IText "t";
         INode 5; INode 5; INode 2; INode 1; IText "t"; INode 5] [4; 3] (Ret tt).
Proof. reflexivity. Qed.

Example iter_hp_both :
  iter hp_both 3 0 None =
  MkRun [INode 0; INode 1; INode 2; INode 1; INode 2] [] (Ret tt).
Proof. reflexivity. Qed.

Example iter_wildcard : iter hp_doc 3 0 (Some "*"%string) = iter hp_doc 3 0 None.
Proof. reflexivity. Qed.

Example iter_empty_tag_raises :
  iter hp_doc 3 0 (Some ""%string) = MkRun [] [] (Raise IndexError).
Proof. reflexivity. Qed.

Example iter_global_loop_runs_dry :
  iter hp_global_loop 3 0 None = MkRun [INode 0; INode 0; INode 0] [] OutOfFuel.
Proof. reflexivity. Qed.

(** * Further properties of the module *)

(** ** [iterchildren] *)

Lemma match_nonempty n t ns : t <> ""%string -> exists v, match_ n t ns = inr v.
Proof.
  intros Ht. destruct t as [|c rest]; [done|]. unfold match_.
  destruct (Ascii.eqb c "{"); [by eexists|].
  destruct (ns_truthy ns); by eexists.
Qed.

Lemma tag_test_selected hp tag c n L :
  tag <> Some ""%string -> hp !! c = Some n ->
  tag_test tag n L = MkRun [] L (Ret (selected hp tag c)).
Proof.
  intros Ht Hc. unfold tag_test, selected. rewrite Hc.
  destruct tag as [t|]; [|done].
  destruct (match_nonempty n t None) as [v Hv]; [congruence|]. by rewrite Hv.
Qed.

Lemma iterchildren_loop hp tag cs L :
  tag <> Some ""%string -> (forall c, c ∈ cs -> c < length hp) ->
  for_each cs (fun child =>
    bind (deref hp child) (fun c =>
      bind (tag_test tag c) (fun b => when b (yield_ (INode child))))) L =
  MkRun (INode <$> List.filter (selected hp tag) cs) L (Ret tt).
Proof.
  intros Ht. revert L. induction cs as [|c cs IH]; intros L Hcs; [done|].
  destruct (lookup_lt_is_Some_2 hp c) as [n Hn].
  { apply Hcs, list_elem_of_here. }
  rewrite for_each_cons.
  rewrite (bind_Ret _ _ L
             (if selected hp tag c then [INode c] else []) L tt).
  - rewrite IH by (intros c' Hc'; by apply Hcs, list_elem_of_further).
    cbn [yielded registry outcome List.filter].
    by destruct (selected hp tag c).
  - unfold bind at 1. rewrite (deref_Some _ _ _ _ Hn). cbn [outcome registry yielded app].
    unfold bind. rewrite (tag_test_selected hp tag c n L Ht Hn).
    cbn [outcome registry yielded app]. by destruct (selected hp tag c).
Qed.

Lemma iterchildren_run hp self e tag :
  closed_heap hp = true -> hp !! self = Some e -> tag <> Some ""%string ->
  iterchildren hp self tag =
  MkRun (INode <$> List.filter
           (selected hp (match tag with
                         | Some t => if String.eqb t "*" then None else Some t
                         | None => None
                         end)) (children e)) [] (Ret tt).
Proof.
  intros Hcl He Ht. unfold iterchildren.
  unfold bind at 1. rewrite (deref_Some _ _ _ _ He). cbn [outcome registry yielded app].
  rewrite iterchildren_loop.
  - reflexivity.
  - destruct tag as [t|]; [|done]. destruct (String.eqb t "*"); [done|]. exact Ht.
  - intros c Hc. by eapply closed_heap_spec.
Qed.

Lemma filter_all {A} (l : list A) : List.filter (fun _ => true) l = l.
Proof. induction l as [|x l IH]; [done|]. cbn. by rewrite IH. Qed.

Lemma py_index_nat {A} (l : list A) (i : nat) x :
  l !! i = Some x -> py_index l (Z.of_nat i) = inr x.
Proof.
  intros Hx. pose proof (lookup_lt_Some _ _ _ Hx) as Hlt. unfold py_index.
  destruct (Z.ltb_spec (Z.of_nat i) 0); [lia|].
  destruct (Z.leb_spec 0 (Z.of_nat i)); [|lia].
  destruct (Z.ltb_spec (Z.of_nat i) (Z.of_nat (length l))); [|lia].
  cbn [andb]. by rewrite Nat2Z.id, Hx.
Qed.

(** X1.  Without a filter ([None] or ['*']) [iterchildren] ends normally
    and yields exactly the children of the component, in document order:
    as many items as [len(self)], the i-th one being [self[i]]. *)
Theorem iterchildren_unfiltered hp self e tag :
  closed_heap hp = true -> hp !! self = Some e ->
  tag = None \/ tag = Some "*"%string ->
  iterchildren hp self tag = MkRun (INode <$> children e) [] (Ret tt) /\
  length (yielded (iterchildren hp self tag)) = __len__ e /\
  forall (i : nat) c,
    yielded (iterchildren hp self tag) !! i = Some (INode c) <->
    (i < __len__ e /\ __getitem__ e (Z.of_nat i) = inr c).
Proof.
  intros Hcl He Htag.
  assert (iterchildren hp self tag = MkRun (INode <$> children e) [] (Ret tt)) as Hrun.
  { rewrite (iterchildren_run hp self e tag Hcl He) by (destruct Htag; by subst).
    destruct Htag as [-> | ->]; cbn [String.eqb Ascii.eqb]; by rewrite filter_all. }
  rewrite Hrun. cbn [yielded]. split; [done|]. split; [by rewrite length_fmap|].
  intros i c. rewrite list_lookup_fmap. unfold __len__, __getitem__. split.
  - intros H. destruct (children e !! i) as [c'|] eqn:Hi; [|done].
    injection H as ->. split; [by eapply lookup_lt_Some | by apply py_index_nat].
  - intros [Hlt H]. destruct (lookup_lt_is_Some_2 (children e) i Hlt) as [c' Hc'].
    rewrite (py_index_nat _ _ _ Hc') in H. injection H as ->. by rewrite Hc'.
Qed.

Lemma iterchildren_unfiltered_witness :
  closed_heap hp_doc = true /\
  iterchildren hp_doc 0 (Some "*"%string) = MkRun [INode 1; INode 4; INode 5] [] (Ret tt).
Proof.
  split; [reflexivity|].
  apply (iterchildren_unfiltered hp_doc 0 _ (Some "*"%string) eq_refl eq_refl).
  by right.
Defined.

Lemma selected_qualified hp t c :
  starts_with_brace t = true -> selected hp (Some t) c = named hp t c.
Proof.
  intros Hb. unfold selected, named. destruct (hp !! c) as [n|]; [|done].
  destruct t as [|a rest]; [done|]. rewrite starts_with_brace_cons in Hb.
  unfold match_. by rewrite Hb.
Qed.

Lemma selected_unqualified hp t c :
  t <> ""%string -> starts_with_brace t = false -> selected hp (Some t) c = false.
Proof.
  intros Hne Hb. unfold selected. destruct (hp !! c) as [n|]; [|done].
  destruct t as [|a rest]; [done|]. rewrite starts_with_brace_cons in Hb.
  unfold match_. by rewrite Hb.
Qed.

Lemma filter_ext_in {A} (f g : A -> bool) l :
  (forall x, f x = g x) -> List.filter f l = List.filter g l.
Proof. intros H. induction l as [|x l IH]; [done|]. cbn. by rewrite H, IH. Qed.

Lemma filter_none {A} (l : list A) : List.filter (fun _ => false) l = [].
Proof. by induction l. Qed.

(** X2.  With a tag written [{uri}local], [iterchildren] yields exactly
    the children whose name is the tag, in document order, and ends
    normally; with a non-empty tag that is not of that form (and is not
    ['*']) it yields nothing, whatever the names of the children. *)
Theorem iterchildren_filtered hp self e t :
  closed_heap hp = true -> hp !! self = Some e -> t <> ""%string ->
  (starts_with_brace t = true ->
     iterchildren hp self (Some t) =
     MkRun (INode <$> List.filter (named hp t) (children e)) [] (Ret tt)) /\
  (starts_with_brace t = false -> t <> "*"%string ->
     iterchildren hp self (Some t) = MkRun [] [] (Ret tt)).
Proof.
  intros Hcl He Ht.
  pose proof (iterchildren_run hp self e (Some t) Hcl He) as Hrun.
  split.
  - intros Hb. rewrite Hrun by congruence.
    destruct (String.eqb t "*") eqn:Es.
    { apply String.eqb_eq in Es. by subst t. }
    by rewrite (filter_ext_in _ (named hp t)) by (intros c; by apply selected_qualified).
  - intros Hb Hstar. rewrite Hrun by congruence.
    destruct (String.eqb t "*") eqn:Es.
    { by apply String.eqb_eq in Es. }
    rewrite (filter_ext_in _ (fun _ => false))
      by (intros c; by apply selected_unqualified).
    by rewrite filter_none.
Qed.

Lemma iterchildren_filtered_witness :
  iterchildren hp_ref 0 (Some "{u}b"%string) = MkRun [INode 1] [] (Ret tt) /\
  iterchildren hp_doc 0 (Some "b1"%string) = MkRun [] [] (Ret tt).
Proof.
  assert ("{u}b"%string <> ""%string) as H1 by discriminate.
  assert ("b1"%string <> ""%string) as H2 by discriminate.
  destruct (iterchildren_filtered hp_ref 0 _ "{u}b" eq_refl eq_refl H1) as [Hq _].
  destruct (iterchildren_filtered hp_doc 0 _ "b1" eq_refl eq_refl H2) as [_ Hu].
  split; [apply Hq; reflexivity | apply Hu; [reflexivity | discriminate]].
Defined.

Lemma bind_Raise {A B} (m : Gen A) (k : A -> Gen B) L ys L1 e :
  m L = MkRun ys L1 (Raise e) -> bind m k L = MkRun ys L1 (Raise e).
Proof. intros E. unfold bind. by rewrite E. Qed.

(** X3.  With the empty tag [iterchildren] raises [IndexError] at the
    first child, before any item is yielded; on a component without
    children it yields nothing and ends normally. *)
Theorem iterchildren_empty_tag hp self e :
  closed_heap hp = true -> hp !! self = Some e ->
  iterchildren hp self (Some ""%string) =
  MkRun [] [] (if bool_decide (children e = []) then Ret tt else Raise IndexError).
Proof.
  intros Hcl He. unfold iterchildren. cbn [String.eqb].
  unfold bind at 1. rewrite (deref_Some _ _ _ _ He). cbn [outcome registry yielded app].
  destruct (children e) as [|c cs] eqn:Hch; [done|].
  rewrite bool_decide_eq_false_2 by done.
  destruct (lookup_lt_is_Some_2 hp c) as [n Hn].
  { eapply closed_heap_spec; eauto. rewrite Hch. apply list_elem_of_here. }
  rewrite for_each_cons. apply bind_Raise.
  by rewrite (bind_Ret _ _ _ _ _ _ (deref_Some _ _ _ [] Hn)).
Qed.

Lemma iterchildren_empty_tag_witness :
  iterchildren hp_doc 0 (Some ""%string) = MkRun [] [] (Raise IndexError) /\
  iterchildren hp_doc 2 (Some ""%string) = MkRun [] [] (Ret tt).
Proof.
  split.
  - apply (iterchildren_empty_tag hp_doc 0 _ eq_refl eq_refl).
  - apply (iterchildren_empty_tag hp_doc 2 _ eq_refl eq_refl).
Defined.

(** ** The sequence protocol *)

Lemma py_index_in_range {A} (l : list A) (i : Z) :
  (0 <= i < Z.of_nat (length l))%Z ->
  exists x, l !! Z.to_nat i = Some x /\ py_index l i = inr x.
Proof.
  intros Hi. destruct (lookup_lt_is_Some_2 l (Z.to_nat i)) as [x Hx]; [lia|].
  exists x. split; [done|]. rewrite <- (Z2Nat.id i) at 1 by lia. by apply py_index_nat.
Qed.

Lemma py_index_negative {A} (l : list A) (i : Z) :
  (i < 0)%Z -> (0 <= Z.of_nat (length l) + i)%Z ->
  py_index l i = py_index l (Z.of_nat (length l) + i).
Proof.
  intros Hneg Hlow. unfold py_index.
  destruct (Z.ltb_spec i 0); [|lia].
  destruct (Z.ltb_spec (Z.of_nat (length l) + i) 0); [lia|]. done.
Qed.

Lemma py_index_out_of_range {A} (l : list A) (i : Z) :
  ~ (- Z.of_nat (length l) <= i < Z.of_nat (length l))%Z ->
  py_index l i = inl IndexError.
Proof.
  intros Hout. unfold py_index.
  destruct (Z.ltb_spec i 0).
  - destruct (Z.leb_spec 0 (Z.of_nat (length l) + i)); [lia|done].
  - destruct (Z.leb_spec 0 i); [|lia].
    destruct (Z.ltb_spec i (Z.of_nat (length l))); [lia|done].
Qed.

(** X4.  [self[i]] is a child of the component exactly when
    [-len(self) <= i < len(self)] and raises [IndexError] otherwise; a
    negative index [i] designates the same child as [len(self) + i], and
    [self[-1 - k]] is the k-th item of [reversed(self)]. *)
Theorem getitem_bounds_and_reversed e (i : Z) :
  ((- Z.of_nat (__len__ e) <= i < Z.of_nat (__len__ e))%Z ->
     exists c, __getitem__ e i = inr c /\ c ∈ children e) /\
  (~ (- Z.of_nat (__len__ e) <= i < Z.of_nat (__len__ e))%Z ->
     __getitem__ e i = inl IndexError) /\
  ((- Z.of_nat (__len__ e) <= i < 0)%Z ->
     __getitem__ e i = __getitem__ e (Z.of_nat (__len__ e) + i)) /\
  (forall (k : nat) c,
     __reversed__ e !! k = Some c <->
     (k < __len__ e /\ __getitem__ e (-1 - Z.of_nat k) = inr c)).
Proof.
  unfold __len__, __getitem__, __reversed__. repeat split.
  - intros Hi. destruct (Z.ltb_spec i 0).
    + rewrite py_index_negative by lia.
      destruct (py_index_in_range (children e) (Z.of_nat (length (children e)) + i))
        as (x & Hx & ->); [lia|].
      exists x. split; [done|]. by eapply list_elem_of_lookup_2.
    + destruct (py_index_in_range (children e) i) as (x & Hx & ->); [lia|].
      exists x. split; [done|]. by eapply list_elem_of_lookup_2.
  - apply py_index_out_of_range.
  - intros Hi. apply py_index_negative; lia.
  - apply reverse_lookup_Some in H. lia.
  - apply reverse_lookup_Some in H as [Hc Hk].
    rewrite py_index_negative by lia.
    replace (Z.of_nat (length (children e)) + (-1 - Z.of_nat k))%Z
      with (Z.of_nat (length (children e) - S k)) by lia.
    by apply py_index_nat.
  - intros [Hk Hc]. apply reverse_lookup_Some. split; [|done].
    rewrite py_index_negative in Hc by lia.
    replace (Z.of_nat (length (children e)) + (-1 - Z.of_nat k))%Z
      with (Z.of_nat (length (children e) - S k)) in Hc by lia.
    destruct (lookup_lt_is_Some_2 (children e) (length (children e) - S k)) as [x Hx]; [lia|].
    rewrite (py_index_nat _ _ _ Hx) in Hc. by injection Hc as ->.
Qed.

(** ** [get] *)

Lemma assoc_Some key v kvs :
  NoDup kvs.*1 -> (key, v) ∈ kvs -> assoc key kvs = Some v.
Proof.
  induction kvs as [|[k w] kvs IH]; intros Hnd Hin.
  { by apply elem_of_nil in Hin. }
  cbn [fmap list_fmap fst] in Hnd. apply NoDup_cons in Hnd as [Hk Hnd].
  cbn [assoc]. apply elem_of_cons in Hin as [[= <- <-]|Hin].
  - by rewrite String.eqb_refl.
  - destruct (String.eqb k key) eqn:E; [|by apply IH].
    apply String.eqb_eq in E as ->. destruct Hk.
    apply list_elem_of_fmap. by exists (key, v).
Qed.

Lemma assoc_None key kvs : key ∉ kvs.*1 -> assoc key kvs = None.
Proof.
  induction kvs as [|[k w] kvs IH]; intros Hn; [done|].
  cbn [assoc]. destruct (String.eqb k key) eqn:E.
  - apply String.eqb_eq in E as ->. destruct Hn. apply list_elem_of_here.
  - apply IH. intros Hin. apply Hn. by apply list_elem_of_further.
Qed.

(** X5.  For a component whose attribute mapping has distinct keys (as a
    mapping has), [get(key, default)] returns the value of the item with
    that key and [default] when there is none; in particular each
    [(name, value)] pair that the full-context walk yields for the
    component is what [get(name)] returns. *)
Theorem get_agrees_with_items e key default :
  NoDup (attributes e).*1 ->
  (forall v, (key, v) ∈ attributes e -> get e key default = Some v) /\
  (key ∉ (attributes e).*1 -> get e key default = default) /\
  (forall k v, IAttr k v ∈ attr_items e -> get e k default = Some v).
Proof.
  intros Hnd. unfold get. repeat split.
  - intros v Hv. by rewrite (assoc_Some key v).
  - intros Hn. by rewrite assoc_None.
  - intros k v Hin. unfold attr_items in Hin.
    apply list_elem_of_In, in_map_iff in Hin as ([k' v'] & [= -> ->] & Hin).
    apply list_elem_of_In in Hin. by rewrite (assoc_Some k v).
Qed.

Lemma get_agrees_with_items_witness :
  get (Node "g" (Some "t"%string) [("k", "v")]%string [4; 5] true None) "k" None
  = Some "v"%string.
Proof.
  apply (get_agrees_with_items _ "k" None).
  - apply (bool_decide_unpack _). reflexivity.
  - apply list_elem_of_here.
Defined.

(** ** [xpath_namespaces] *)

(** X6.  A component without [namespaces] has no XPath namespaces.
    Otherwise every non-empty prefix keeps the URI that [namespaces]
    gives it, and the empty prefix is bound to [xpath_default_namespace]
    alone: what [namespaces] binds to the empty prefix is dropped. *)
Theorem xpath_namespaces_lookup ns d :
  xpath_namespaces None d = None /\
  exists m, xpath_namespaces (Some ns) d = Some m /\
    m !! ""%string = d /\
    forall k, k <> ""%string -> m !! k = ns !! k.
Proof.
  split; [done|]. unfold xpath_namespaces. eexists. split; [reflexivity|].
  assert (filter (fun kv : string * string => kv.1 <> ""%string) ns !! ""%string = None) as Hempty.
  { apply map_lookup_filter_None. right. intros x _ H. by apply H. }
  assert (forall k, k <> ""%string ->
            filter (fun kv : string * string => kv.1 <> ""%string) ns !! k = ns !! k) as Hkept.
  { intros k Hk. destruct (ns !! k) as [x|] eqn:E.
    - by apply map_lookup_filter_Some.
    - apply map_lookup_filter_None. by left. }
  destruct d as [d|].
  - split; [apply lookup_insert_eq|]. intros k Hk.
    rewrite lookup_insert_ne by done. by apply Hkept.
  - split; [done|]. exact Hkept.
Qed.

(** ** [iterfind], [find], [findall] *)

Lemma relative_path_slash p :
  relative_path (String "/" p) = String "." (String "/" p) /\
  relative_path (String "." (String "/" p)) = String "." (String "/" p).
Proof. unfold relative_path. cbn. by destruct p. Qed.

(** X7.  A path that starts with a slash is taken relative to the
    component: [iterfind], [find] and [findall] give for ["/p"] what they
    give for ["./p"].  The path handed to the parser never starts with a
    slash.  [find] fails when [iterfind] fails, and otherwise returns the
    first item of [iterfind], or [None] when there is none. *)
Theorem leading_slash_is_relative (token error result : Type)
    (parse : option (gmap string string) -> string -> error + token)
    (select : token -> handle -> list item)
    (get_results : token -> handle -> result) self self_ns namespaces p :
  iterfind token error parse select self self_ns (String "/" p) namespaces =
    iterfind token error parse select self self_ns (String "." (String "/" p)) namespaces /\
  find token error parse select self self_ns (String "/" p) namespaces =
    find token error parse select self self_ns (String "." (String "/" p)) namespaces /\
  findall token error result parse get_results self self_ns (String "/" p) namespaces =
    findall token error result parse get_results self self_ns (String "." (String "/" p)) namespaces /\
  (forall q, String.prefix "/" (relative_path q) = false) /\
  (forall q, find token error parse select self self_ns q namespaces =
     match iterfind token error parse select self self_ns q namespaces with
     | inl err => inl err
     | inr items => inr (head items)
     end).
Proof.
  destruct (relative_path_slash p) as [H1 H2].
  unfold iterfind, find, findall. rewrite H1, H2. repeat split.
  - intros q. unfold relative_path. destruct (String.prefix "/" q) eqn:E; [|done].
    cbn. reflexivity.
  - intros q. by destruct (parse _ _).
Qed.

(** ** The filter of [iter] *)

Section Related.

Variable Q : list item -> list item -> Prop.
Hypothesis Q_nil : Q [] [].
Hypothesis Q_app : forall a b c d, Q a b -> Q c d -> Q (a ++ c) (b ++ d).

Lemma related_silent {A} (m : Gen A) L : yielded (m L) = [] -> related Q (m L) (m L).
Proof. intros H. unfold related. by rewrite H. Qed.

Lemma related_bind {A B} (m m' : Gen A) (k k' : A -> Gen B) L :
  related Q (m L) (m' L) ->
  (forall a L', related Q (k a L') (k' a L')) ->
  related Q (bind m k L) (bind m' k' L).
Proof.
  intros (Hy & Hr & Ho) Hk. unfold bind. rewrite <- Ho.
  destruct (outcome (m L)) as [a| | |]; try done.
  rewrite <- Hr. destruct (Hk a (registry (m L))) as (Hy' & Hr' & Ho').
  repeat split; try done. cbn [yielded]. by apply Q_app.
Qed.

Lemma related_for_each {A} (xs : list A) body body' L :
  (forall x L', related Q (body x L') (body' x L')) ->
  related Q (for_each xs body L) (for_each xs body' L).
Proof.
  intros H. revert L. induction xs as [|x xs IH]; intros L; [done|].
  rewrite !for_each_cons. apply related_bind; auto.
Qed.

Lemma related_context_child hp rec rec' c L :
  (forall h, Q [INode h] [INode h]) ->
  (forall c' L', related Q (rec c' L') (rec' c' L')) ->
  related Q (context_child hp rec c L) (context_child hp rec' c L).
Proof.
  intros Hone H. unfold context_child.
  apply related_bind; [apply related_silent, deref_silent|].
  intros cn L'. destruct (is_global cn); [apply H|].
  destruct (ref cn); [repeat split; apply Hone|].
  apply related_bind; [by apply related_silent|]. intros L1 L2.
  destruct (py_in c L1); [by apply related_silent|].
  apply related_bind; [by apply related_silent|]. intros _ ?. apply H.
Qed.

(** The walk without a filter against the walk with the filter [t]: the
    two agree as soon as [Q] relates what they yield at a component and at
    a reference child. *)
Lemma related_safe_iter hp t fuel :
  t <> ""%string ->
  (forall h, Q [INode h] (if selected hp (Some t) h then [INode h] else [])) ->
  (forall p c cn, hp !! c = Some cn -> reference_leaf cn = true ->
     Q [INode c] (if selected hp (Some t) p then [INode c] else [])) ->
  forall elem L,
    related Q (safe_iter hp fuel None elem L) (safe_iter hp fuel (Some t) elem L).
Proof.
  intros Ht Hyield Href. induction fuel as [|fuel IH]; intros elem L; [done|].
  destruct (hp !! elem) as [e|] eqn:E.
  2: { destruct (walk_dangling hp fuel None elem L E) as (-> & _).
       destruct (walk_dangling hp fuel (Some t) elem L E) as (-> & _). done. }
  assert (forall L', tag_test (Some t) e L' = MkRun [] L' (Ret (selected hp (Some t) elem)))
    as Htest by (intros L'; apply tag_test_selected; [congruence|done]).
  rewrite !(safe_iter_S _ _ _ _ _ _ E).
  rewrite (bind_Ret _ _ _ _ _ _ (Htest L)).
  change (bind (tag_test None e) ?k L) with (k true L). cbv beta.
  cbn [yielded app].
  apply (related_bind (when true (yield_ (INode elem)))
           (when (selected hp (Some t) elem) (yield_ (INode elem)))).
  { cbn [when]. pose proof (Hyield elem) as Hy.
    destruct (selected hp (Some t) elem); by repeat split. }
  intros _ L'. apply related_for_each. intros c L1.
  destruct (hp !! c) as [cn|] eqn:Ec.
  2: { unfold iter_child, bind, deref. rewrite Ec. done. }
  rewrite !(iter_child_S _ _ _ _ _ _ _ Ec).
  destruct (is_global cn) eqn:Hg; [apply IH|].
  destruct (ref cn) as [tg|] eqn:Hr.
  - rewrite (bind_Ret _ _ _ _ _ _ (Htest L1)).
    change (bind (tag_test None e) ?k L1) with (k true L1). cbv beta.
    assert (reference_leaf cn = true) as Hleaf by (unfold reference_leaf; by rewrite Hg, Hr).
    pose proof (Href elem c cn Ec Hleaf) as Hq.
    destruct (selected hp (Some t) elem); by repeat split.
  - rewrite !bind_get_registry. destruct (py_in c L1); [done|].
    rewrite !bind_append_registry. apply IH.
Qed.

End Related.

Lemma star_is_not_a_filter t :
  t <> "*"%string ->
  (if String.eqb t "*" then None else Some t) = Some t.
Proof. intros H. destruct (String.eqb t "*") eqn:E; [|done]. by apply String.eqb_eq in E. Qed.

(** X8.  A non-empty tag filter only thins out what [iter] yields: the
    filtered call walks the same components, leaves the same registry and
    ends the same way as the call without a filter, and its items are a
    subsequence of the items of that call. *)
Theorem filter_keeps_the_walk hp fuel root t :
  t <> ""%string ->
  yielded (iter hp fuel root (Some t)) `sublist_of` yielded (iter hp fuel root None) /\
  registry (iter hp fuel root (Some t)) = registry (iter hp fuel root None) /\
  outcome (iter hp fuel root (Some t)) = outcome (iter hp fuel root None).
Proof.
  intros Ht. unfold iter. destruct (String.eqb t "*") eqn:Es; [done|].
  destruct (related_safe_iter (fun a b => b `sublist_of` a)) with
    (hp := hp) (t := t) (fuel := fuel) (elem := root) (L := @nil nat)
    as (Hy & Hr & Ho); try done.
  - intros a b c d. apply sublist_app.
  - intros h. destruct (selected hp (Some t) h); [done|]. apply sublist_nil_l.
  - intros p c cn _ _. destruct (selected hp (Some t) p); [done|]. apply sublist_nil_l.
Qed.

Lemma filter_keeps_the_walk_witness :
  yielded (iter hp_ref 2 0 (Some "{u}b"%string)) `sublist_of` yielded (iter hp_ref 2 0 None) /\
  registry (iter hp_ref 2 0 (Some "{u}b"%string)) = registry (iter hp_ref 2 0 None) /\
  outcome (iter hp_ref 2 0 (Some "{u}b"%string)) = outcome (iter hp_ref 2 0 None).
Proof. apply (filter_keeps_the_walk hp_ref 2 0 "{u}b"). discriminate. Defined.

(** X9.  In a store without reference children (no component is both
    non-global and a reference), [iter] with a non-empty tag yields exactly
    the items of the call without a filter that pass the filter, in the
    same order; for a tag written [{uri}local] these are the components
    whose name is the tag. *)
Theorem filter_without_reference_children hp fuel root t :
  t <> ""%string -> t <> "*"%string ->
  Forall (fun n => reference_leaf n = false) hp ->
  yielded (iter hp fuel root (Some t)) =
    List.filter (item_selected hp (Some t)) (yielded (iter hp fuel root None)) /\
  (starts_with_brace t = true ->
     forall h, item_selected hp (Some t) (INode h) = named hp t h).
Proof.
  intros Ht Hstar Hnoref. split; [|intros Hb h; by apply selected_qualified].
  unfold iter. rewrite (star_is_not_a_filter t Hstar).
  destruct (related_safe_iter (fun a b => b = List.filter (item_selected hp (Some t)) a))
    with (hp := hp) (t := t) (fuel := fuel) (elem := root) (L := @nil nat)
    as (Hy & _ & _); try done.
  - intros a b c d -> ->. by rewrite List.filter_app.
  - intros p c cn Hc Hleaf. rewrite Forall_forall in Hnoref.
    rewrite (Hnoref cn) in Hleaf; [done|]. by eapply list_elem_of_lookup_2.
Qed.

Lemma filter_without_reference_children_witness :
  yielded (iter hp_ns 3 0 (Some "{u}a"%string)) =
    List.filter (item_selected hp_ns (Some "{u}a"%string)) (yielded (iter hp_ns 3 0 None)) /\
  yielded (iter hp_ns 3 0 (Some "{u}a"%string)) = [INode 0; INode 2].
Proof.
  split; [|reflexivity].
  apply (filter_without_reference_children hp_ns 3 0 "{u}a").
  - discriminate.
  - discriminate.
  - repeat constructor.
Defined.

(** ** The three walks side by side *)

Lemma context_vs_descendants hp fuel :
  forall elem L,
    related (fun a b => b = List.filter (fun i => negb (is_attr i)) a)
      (safe_iter_context hp fuel elem L) (safe_iter_descendants hp fuel elem L).
Proof.
  induction fuel as [|fuel IH]; intros elem L; [done|].
  destruct (hp !! elem) as [e|] eqn:E.
  2: { by destruct (walk_dangling hp fuel None elem L E) as (_ & -> & ->). }
  rewrite (safe_iter_context_S _ _ _ _ _ E), (safe_iter_descendants_S _ _ _ _ _ E).
  cbv zeta.
  destruct (related_for_each
              (fun a b => b = List.filter (fun i => negb (is_attr i)) a) eq_refl
              (fun a b c d Hab Hcd =>
                 eq_trans (f_equal2 app Hab Hcd) (eq_sym (List.filter_app _ a c)))
              (children e)
              (context_child hp (safe_iter_context hp fuel))
              (context_child hp (safe_iter_descendants hp fuel)) L) as (Hy & Hr & Ho).
  { intros c L'. apply related_context_child; try done.
    intros a b c' d -> ->. by rewrite List.filter_app. }
  repeat split; try done. cbn [yielded]. rewrite Hy.
  change (INode elem :: ?l) with ([INode elem] ++ l).
  rewrite !List.filter_app. cbn [List.filter is_attr negb app]. f_equal. f_equal.
  - unfold text_items. by destruct (text e).
  - replace (List.filter (fun i => negb (is_attr i)) (attr_items e)) with (@nil item); [done|].
    unfold attr_items. by induction (attributes e).
Qed.

Lemma nodes_only_fmap l : Forall node_item l -> l = INode <$> nodes_of l.
Proof.
  induction l as [|i l IH]; intros Hn; [done|].
  apply Forall_cons in Hn as [[h ->] Hn]. cbn. f_equal. by apply IH.
Qed.

(** X10.  For the same start and the same budget the three traversals
    visit the same components in the same order, leave the same registry
    and end the same way; [iter] yields nothing but these components, and
    [_iter_descendants] yields the items of [_iter_context] without the
    attribute pairs. *)
Theorem walks_side_by_side hp fuel root :
  nodes_of (yielded (_iter_context hp fuel root)) = nodes_of (yielded (iter hp fuel root None)) /\
  nodes_of (yielded (_iter_descendants hp fuel root)) = nodes_of (yielded (iter hp fuel root None)) /\
  yielded (iter hp fuel root None) = INode <$> nodes_of (yielded (iter hp fuel root None)) /\
  yielded (_iter_descendants hp fuel root) =
    List.filter (fun i => negb (is_attr i)) (yielded (_iter_context hp fuel root)) /\
  registry (_iter_context hp fuel root) = registry (iter hp fuel root None) /\
  registry (_iter_descendants hp fuel root) = registry (iter hp fuel root None) /\
  outcome (_iter_context hp fuel root) = outcome (iter hp fuel root None) /\
  outcome (_iter_descendants hp fuel root) = outcome (iter hp fuel root None).
Proof.
  destruct (context_walks_same_nodes hp fuel root [])
    as ((Hc1 & Hc2 & Hc3) & (Hd1 & Hd2 & Hd3)).
  destruct (context_vs_descendants hp fuel root []) as (Hf & _ & _).
  repeat split; try done.
  apply nodes_only_fmap, safe_iter_nodes.
Qed.

(** X11.  With the empty tag [iter] raises [IndexError] at its first
    step, whatever the component it is started on: nothing is yielded and
    nothing is put in the registry. *)
Theorem iter_empty_tag hp fuel root e :
  hp !! root = Some e ->
  iter hp (S fuel) root (Some ""%string) = MkRun [] [] (Raise IndexError).
Proof.
  intros He. unfold iter. cbn [String.eqb].
  rewrite (safe_iter_S _ _ _ _ _ _ He). by apply bind_Raise.
Qed.

Lemma iter_empty_tag_witness :
  iter hp_doc 1 0 (Some ""%string) = MkRun [] [] (Raise IndexError).
Proof. apply (iter_empty_tag hp_doc 0 0 _ eq_refl). Defined.

(** ** More on [match] *)

(** X12.  [match] raises [IndexError] exactly on the empty tag.  For a tag
    written [{uri}local] it compares the tag with the name of the
    component and ignores [default_namespace].  For another non-empty tag
    and a non-empty default namespace it answers true exactly when the
    name is the tag or when the tag qualified by that namespace matches. *)
Theorem match_outcomes self t ns :
  (match_ self t ns = inl IndexError <-> t = ""%string) /\
  (starts_with_brace t = true ->
     match_ self t ns = inr (PyBool (String.eqb (name self) t))) /\
  (t <> ""%string -> starts_with_brace t = false ->
     forall s, s <> ""%string ->
       (match_ self t (Some s) = inr (PyBool true) <->
        name self = t \/ match_ self (qualified s t) None = inr (PyBool true))).
Proof.
  split; [split|split].
  - intros H. destruct t as [|a t]; [done|].
    destruct (match_nonempty self (String a t) ns) as [v Hv]; [done | congruence].
  - by intros ->.
  - intros Hb. destruct t as [|c rest]; [done|]. rewrite starts_with_brace_cons in Hb.
    unfold match_. by rewrite Hb.
  - intros Hne Hb s Hs. destruct t as [|c rest]; [done|].
    rewrite starts_with_brace_cons in Hb. apply String.eqb_neq in Hs.
    assert (match_ self (String c rest) (Some s) =
            inr (PyBool (String.eqb (name self) (String c rest)
                         || String.eqb (name self) (qualified s (String c rest))))) as ->.
    { unfold match_. rewrite Hb. cbn [ns_truthy default]. by rewrite Hs. }
    assert (match_ self (qualified s (String c rest)) None =
            inr (PyBool (String.eqb (name self) (qualified s (String c rest))))) as ->.
    { reflexivity. }
    split.
    + intros [= H]. apply orb_true_iff in H as [H|H].
      * left. by apply String.eqb_eq.
      * right. by rewrite H.
    + intros [H|[= H]]; do 2 f_equal; apply orb_true_iff.
      * left. by apply String.eqb_eq.
      * by right.
Qed.

(** ** The recursion budget *)

Lemma bind_stable {A B} (m : Gen A) (k k' : A -> Gen B) L :
  ended (outcome (bind m k L)) = true ->
  (forall a L', ended (outcome (k a L')) = true -> k' a L' = k a L') ->
  bind m k' L = bind m k L.
Proof.
  unfold bind. intros Hend Hk.
  destruct (outcome (m L)) as [a| | |]; try done.
  cbn [outcome] in Hend. by rewrite (Hk a _ Hend).
Qed.

Lemma for_each_stable {A} (xs : list A) body body' :
  (forall x L, ended (outcome (body x L)) = true -> body' x L = body x L) ->
  forall L, ended (outcome (for_each xs body L)) = true ->
    for_each xs body' L = for_each xs body L.
Proof.
  intros Hb. induction xs as [|x xs IH]; intros L Hend; [done|].
  rewrite !for_each_cons in *.
  assert (ended (outcome (body x L)) = true) as Hx.
  { unfold bind in Hend. by destruct (outcome (body x L)). }
  rewrite (bind_ext_l (body' x) (body x)) by auto.
  apply bind_stable; [done|]. intros _ L' H'. by apply IH.
Qed.

Lemma context_child_stable hp rec rec' c L :
  (forall c' L', ended (outcome (rec c' L')) = true -> rec' c' L' = rec c' L') ->
  ended (outcome (context_child hp rec c L)) = true ->
  context_child hp rec' c L = context_child hp rec c L.
Proof.
  intros Hrec Hend. destruct (hp !! c) as [cn|] eqn:Ec.
  2: { unfold context_child, bind, deref. by rewrite Ec. }
  rewrite !(context_child_S _ _ _ _ _ Ec) in *.
  destruct (is_global cn); [by apply Hrec|]. destruct (ref cn); [done|].
  rewrite !bind_get_registry in *. destruct (py_in c L); [done|].
  rewrite !bind_append_registry in *. by apply Hrec.
Qed.

Lemma iter_child_stable hp rec rec' tag e c L :
  (forall c' L', ended (outcome (rec c' L')) = true -> rec' c' L' = rec c' L') ->
  ended (outcome (iter_child hp rec tag e c L)) = true ->
  iter_child hp rec' tag e c L = iter_child hp rec tag e c L.
Proof.
  intros Hrec Hend. destruct (hp !! c) as [cn|] eqn:Ec.
  2: { unfold iter_child, bind, deref. by rewrite Ec. }
  rewrite !(iter_child_S _ _ _ _ _ _ _ Ec) in *.
  destruct (is_global cn); [by apply Hrec|]. destruct (ref cn); [done|].
  rewrite !bind_get_registry in *. destruct (py_in c L); [done|].
  rewrite !bind_append_registry in *. by apply Hrec.
Qed.

Lemma safe_iter_stable hp tag fuel :
  forall fuel' elem L, fuel ≤ fuel' ->
    ended (outcome (safe_iter hp fuel tag elem L)) = true ->
    safe_iter hp fuel' tag elem L = safe_iter hp fuel tag elem L.
Proof.
  induction fuel as [|fuel IH]; intros fuel' elem L Hle Hend; [done|].
  destruct fuel' as [|fuel']; [lia|].
  destruct (hp !! elem) as [e|] eqn:E.
  2: { by destruct (walk_dangling hp fuel tag elem L E) as (Hd & _); rewrite Hd in Hend. }
  rewrite !(safe_iter_S _ _ _ _ _ _ E) in *.
  apply bind_stable; [done|]. intros b L1 H1.
  apply bind_stable; [done|]. intros _ L2 H2.
  apply for_each_stable; [|done]. intros c L3 H3.
  apply iter_child_stable; [|done]. intros c' L4 H4. apply IH; [lia|done].
Qed.

Lemma context_walks_stable hp fuel :
  forall fuel' elem L, fuel ≤ fuel' ->
    (ended (outcome (safe_iter_context hp fuel elem L)) = true ->
     safe_iter_context hp fuel' elem L = safe_iter_context hp fuel elem L) /\
    (ended (outcome (safe_iter_descendants hp fuel elem L)) = true ->
     safe_iter_descendants hp fuel' elem L = safe_iter_descendants hp fuel elem L).
Proof.
  induction fuel as [|fuel IH]; intros fuel' elem L Hle; [done|].
  destruct fuel' as [|fuel']; [lia|].
  destruct (hp !! elem) as [e|] eqn:E.
  2: { by destruct (walk_dangling hp fuel None elem L E) as (_ & -> & ->). }
  rewrite !(safe_iter_context_S _ _ _ _ _ E), !(safe_iter_descendants_S _ _ _ _ _ E).
  cbv zeta. cbn [outcome]. split; intros Hend.
  - rewrite (for_each_stable (children e) (context_child hp (safe_iter_context hp fuel))
               (context_child hp (safe_iter_context hp fuel'))); [done| |done].
    intros c L1 H1. apply context_child_stable; [|done].
    intros c' L2 H2. apply IH; [lia|done].
  - rewrite (for_each_stable (children e) (context_child hp (safe_iter_descendants hp fuel))
               (context_child hp (safe_iter_descendants hp fuel'))); [done| |done].
    intros c L1 H1. apply context_child_stable; [|done].
    intros c' L2 H2. apply IH; [lia|done].
Qed.

(** A traversal that has ended within a budget is the same with any larger
    one. *)
Lemma budget_independence hp fuel fuel' root tag :
  fuel ≤ fuel' ->
  (ended (outcome (iter hp fuel root tag)) = true ->
     iter hp fuel' root tag = iter hp fuel root tag) /\
  (ended (outcome (_iter_descendants hp fuel root)) = true ->
     _iter_descendants hp fuel' root = _iter_descendants hp fuel root) /\
  (ended (outcome (_iter_context hp fuel root)) = true ->
     _iter_context hp fuel' root = _iter_context hp fuel root).
Proof.
  intros Hle. split; [|split].
  - unfold iter. by apply safe_iter_stable.
  - by apply (context_walks_stable hp fuel fuel' root []).
  - by apply (context_walks_stable hp fuel fuel' root []).
Qed.

(** ** What the registry and the yielded components are *)

(** X14.  When a traversal has run to its end, its registry has no
    duplicate and holds only ordinary local components (not global, not
    references), each of which was yielded; and an ordinary local
    component other than the start is yielded once if it is in the
    registry and never otherwise. *)
Theorem registry_and_yields hp fuel root r :
  traversal hp fuel root r -> outcome r = Ret tt ->
  NoDup (registry r) /\
  (forall c, c ∈ registry r -> plain_local hp c /\ c ∈ nodes_of (yielded r)) /\
  (forall c, plain_local hp c -> c <> root ->
     occurrences c (nodes_of (yielded r)) = if bool_decide (c ∈ registry r) then 1 else 0).
Proof.
  intros Htr Hout. repeat split.
  - destruct (traversal_same_nodes _ _ _ _ Htr) as (Hy & Hr & Ho).
    rewrite Hr. rewrite Ho in Hout. unfold iter in *.
    destruct (safe_iter_tally hp fuel root [] Hout) as (new & En & Hnd & _).
    apply Hnd. constructor.
  - pose proof (traversal_registry _ _ _ _ Htr) as Hreg.
    rewrite Forall_forall in Hreg. by apply Hreg.
  - destruct (traversal_same_nodes _ _ _ _ Htr) as (Hy & Hr & Ho).
    rewrite Hy, Hr in *. rewrite Ho in Hout. unfold iter in *.
    destruct (safe_iter_covers hp fuel root [] Hout) as ([(new & En & Hnew) _] & _).
    apply Hnew. by rewrite En in H.
  - intros c Hc Hne.
    destruct (traversal_tally hp fuel root r c Htr Hout Hc) as [_ ->].
    by rewrite bool_decide_eq_false_2.
Qed.

Lemma registry_and_yields_witness :
  NoDup (registry (iter hp_mixed 21 0 None)) /\
  (forall c, c ∈ registry (iter hp_mixed 21 0 None) ->
     plain_local hp_mixed c /\ c ∈ nodes_of (yielded (iter hp_mixed 21 0 None))).
Proof.
  destruct (registry_and_yields hp_mixed 21 0 (iter hp_mixed 21 0 None)) as (H1 & H2 & _);
    [constructor | reflexivity |].
  split; [exact H1 | exact H2].
Defined.

Lemma children_loop_yields hp fuel cs :
  forall L1,
    outcome (for_each cs (context_child hp (safe_iter hp fuel None)) L1) = Ret tt ->
    (exists new,
       registry (for_each cs (context_child hp (safe_iter hp fuel None)) L1) = L1 ++ new /\
       forall x, x ∈ new ->
         x ∈ nodes_of (yielded (for_each cs (context_child hp (safe_iter hp fuel None)) L1))) /\
    forall c, c ∈ cs ->
      c ∈ L1 \/
      c ∈ nodes_of (yielded (for_each cs (context_child hp (safe_iter hp fuel None)) L1)).
Proof.
  set (body := context_child hp (safe_iter hp fuel None)).
  assert (forall c L1, outcome (body c L1) = Ret tt ->
            (exists new, registry (body c L1) = L1 ++ new /\
               forall x, x ∈ new -> x ∈ nodes_of (yielded (body c L1))) /\
            (c ∈ L1 \/ c ∈ nodes_of (yielded (body c L1)))) as Hstep.
  { intros c L1 Hc. unfold body in *. destruct (hp !! c) as [cn|] eqn:Ec.
    2: { unfold context_child, bind, deref in Hc. by rewrite Ec in Hc. }
    rewrite (context_child_S _ _ _ _ _ Ec) in *.
    destruct (is_global cn).
    { destruct (safe_iter_covers hp fuel c L1 Hc) as ([Hnew _] & Hself & _). by split; [|right]. }
    destruct (ref cn).
    { split; [|right; apply list_elem_of_here].
      exists []. split; [by rewrite app_nil_r|]. intros x Hx. by apply elem_of_nil in Hx. }
    rewrite bind_get_registry in *. destruct (py_in c L1) eqn:Hin.
    { split; [|left; by apply py_in_spec].
      exists []. split; [by rewrite app_nil_r|]. intros x Hx. by apply elem_of_nil in Hx. }
    rewrite bind_append_registry in *.
    destruct (safe_iter_covers hp fuel c (L1 ++ [c]) Hc) as ([(new & En & Hnew) _] & Hself & _).
    split; [|by right]. exists (c :: new). split; [by rewrite En, <- app_assoc|].
    intros x Hx. apply elem_of_cons in Hx as [->|Hx]; auto. }
  induction cs as [|c cs IH]; intros L1 Hout.
  { split; [|intros c Hc; by apply elem_of_nil in Hc].
    exists []. split; [by rewrite app_nil_r|]. intros x Hx. by apply elem_of_nil in Hx. }
  rewrite for_each_cons in *.
  destruct (bind_outcome_Ret _ _ _ _ Hout) as ([] & H1 & H2).
  rewrite (bind_of_Ret _ _ _ _ H1). cbn [yielded registry].
  destruct (Hstep c L1 H1) as ((new1 & E1 & Hnew1) & Hc1).
  destruct (IH _ H2) as ((new2 & E2 & Hnew2) & Hcs).
  split.
  - exists (new1 ++ new2). split; [by rewrite E2, E1, app_assoc|].
    intros x Hx. rewrite nodes_of_app. apply elem_of_app.
    apply elem_of_app in Hx as [Hx|Hx]; auto.
  - intros c' Hc'. rewrite nodes_of_app.
    apply elem_of_cons in Hc' as [->|Hc'].
    + destruct Hc1 as [?|?]; [by left|]. right. apply elem_of_app. by left.
    + destruct (Hcs c' Hc') as [Hreg|Hy]; [|right; apply elem_of_app; by right].
      rewrite E1 in Hreg. apply elem_of_app in Hreg as [?|Hn]; [by left|].
      right. apply elem_of_app. left. by apply Hnew1.
Qed.

(** X15.  A traversal that runs to its end yields the component it is
    started on and every one of its children, whatever their kind: all
    that [iterchildren] yields without a filter is yielded by [iter] and by
    the two context walks. *)
Theorem traversal_yields_children hp fuel root r e :
  traversal hp fuel root r -> outcome r = Ret tt -> hp !! root = Some e ->
  root ∈ nodes_of (yielded r) /\
  (forall c, c ∈ children e -> c ∈ nodes_of (yielded r)) /\
  (closed_heap hp = true ->
     forall i, i ∈ yielded (iterchildren hp root None) ->
       exists c, i = INode c /\ c ∈ nodes_of (yielded r)).
Proof.
  intros Htr Hout He.
  destruct (traversal_same_nodes _ _ _ _ Htr) as (Hy & _ & Ho).
  rewrite Hy. rewrite Ho in Hout. clear Hy Ho Htr r.
  assert (fuel <> 0) as Hfuel by (intros ->; done).
  destruct fuel as [|fuel]; [done|]. unfold iter in *.
  rewrite (safe_iter_None_S _ _ _ _ _ He) in *. cbv zeta in *. cbn [outcome yielded] in *.
  change (INode root :: ?l) with ([INode root] ++ l). rewrite nodes_of_app.
  change (nodes_of [INode root]) with [root].
  destruct (children_loop_yields hp fuel (children e) [] Hout) as (_ & Hkids).
  assert (forall c, c ∈ children e ->
            c ∈ [root] ++ nodes_of (yielded (for_each (children e)
                    (context_child hp (safe_iter hp fuel None)) []))) as Hall.
  { intros c Hc. destruct (Hkids c Hc) as [Hnil|Hin]; [by apply elem_of_nil in Hnil|].
    apply elem_of_app. by right. }
  split; [apply list_elem_of_here|]. split; [exact Hall|].
  intros Hcl i Hi.
  rewrite (iterchildren_run hp root e None Hcl He) in Hi by done.
  cbn [yielded selected] in Hi. rewrite filter_all in Hi.
  apply list_elem_of_fmap in Hi as (c & -> & Hc). exists c. split; [done|]. by apply Hall.
Qed.

Lemma traversal_yields_children_witness :
  0 ∈ nodes_of (yielded (iter hp_mixed 6 0 None)) /\
  Forall (fun c => c ∈ nodes_of (yielded (iter hp_mixed 6 0 None))) [1; 2; 3; 1].
Proof.
  destruct (traversal_yields_children hp_mixed 6 0 (iter hp_mixed 6 0 None) _
              (traversal_iter _ _ _) eq_refl eq_refl) as (H0 & H & _).
  split; [exact H0|]. apply Forall_forall. exact H.
Defined.

Lemma yielded_bind {A B} (m : Gen A) (k : A -> Gen B) L :
  yielded (bind m k L) =
  yielded (m L) ++ match outcome (m L) with
                   | Ret a => yielded (k a (registry (m L)))
                   | _ => []
                   end.
Proof. unfold bind. destruct (outcome (m L)); cbn [yielded]; by rewrite ?app_nil_r. Qed.


(** * The walk as a whole *)

(** ** The components a walk reaches *)


Lemma walked_descendant hp root p : walked hp root p -> descendant hp root p.
Proof.
  induction 1 as [|p e c _ IH He Hc _]; [apply descendant_self|].
  by apply (descendant_child hp root p e c).
Qed.

Lemma met_descendant hp root c : met hp root c -> descendant hp root c.
Proof.
  intros (p & e & Hp & He & Hc).
  apply (descendant_child hp root p e c); [by apply walked_descendant|done|done].
Qed.

Lemma expands_global hp c cn : hp !! c = Some cn -> is_global cn = true -> expands hp c = true.
Proof. intros E Hg. unfold expands. by rewrite E, Hg. Qed.

Lemma expands_local hp c cn :
  hp !! c = Some cn -> ref cn = None -> expands hp c = true.
Proof. intros E Hr. unfold expands. rewrite E, Hr. by destruct (is_global cn). Qed.

Lemma expands_reference hp c cn t :
  hp !! c = Some cn -> is_global cn = false -> ref cn = Some t -> expands hp c = false.
Proof. intros E Hg Hr. unfold expands. by rewrite E, Hg, Hr. Qed.


Lemma children_of_Some hp p e : hp !! p = Some e -> children_of hp p = children e.
Proof. intros E. unfold children_of. by rewrite E. Qed.

(** Whatever the budget, what a walk yields after its start was met in a
    loop over the children of a component the walk recurses into. *)
Lemma safe_iter_yields_met hp root fuel :
  forall elem L, walked hp root elem ->
    let ns := nodes_of (yielded (safe_iter hp fuel None elem L)) in
    (ns = [] \/ head ns = Some elem) /\ forall d, d ∈ tail ns -> met hp root d.
Proof.
  induction fuel as [|fuel IH]; intros elem L Hw ns.
  { subst ns. split; [by left|]. intros d Hd. by apply elem_of_nil in Hd. }
  subst ns. destruct (hp !! elem) as [e|] eqn:E.
  2: { destruct (walk_dangling hp fuel None elem L E) as (Hd & _). rewrite Hd.
       split; [by left|]. intros d Hd'. by apply elem_of_nil in Hd'. }
  rewrite (safe_iter_None_S _ _ _ _ _ E). cbv zeta. cbn [yielded].
  set (body := context_child hp (safe_iter hp fuel None)).
  assert (forall c L1 d, c ∈ children e ->
            d ∈ nodes_of (yielded (body c L1)) -> met hp root d) as Hstep.
  { intros c L1 d Hc Hd. unfold body in *.
    assert (met hp root c) as Hmet by (by exists elem, e).
    destruct (hp !! c) as [cn|] eqn:Ec.
    2: { unfold context_child, bind, deref in Hd. rewrite Ec in Hd.
         by apply elem_of_nil in Hd. }
    rewrite (context_child_S _ _ _ _ _ Ec) in Hd.
    assert (forall L2, walked hp root c ->
              d ∈ nodes_of (yielded (safe_iter hp fuel None c L2)) -> met hp root d) as Hrec.
    { intros L2 Hwc Hd2. destruct (IH c L2 Hwc) as [Hhead Htail].
      destruct (nodes_of (yielded (safe_iter hp fuel None c L2))) as [|x xs] eqn:Ens.
      { by apply elem_of_nil in Hd2. }
      destruct Hhead as [?|Hhead]; [done|]. cbn in Hhead. injection Hhead as ->.
      apply elem_of_cons in Hd2 as [->|Hd2]; [done|]. by apply Htail. }
    destruct (is_global cn) eqn:Hg.
    { apply (Hrec L1); [|done].
      apply (walked_child hp root elem e c); try done. by apply (expands_global hp c cn). }
    destruct (ref cn) as [t|] eqn:Hr.
    { by apply list_elem_of_singleton in Hd as ->. }
    rewrite bind_get_registry in Hd. destruct (py_in c L1).
    { by apply elem_of_nil in Hd. }
    rewrite bind_append_registry in Hd.
    apply (Hrec (L1 ++ [c])); [|done].
    apply (walked_child hp root elem e c); try done. by apply (expands_local hp c cn). }
  assert (forall cs L1 d, (forall c, c ∈ cs -> c ∈ children e) ->
            d ∈ nodes_of (yielded (for_each cs body L1)) -> met hp root d) as Hloop.
  { induction cs as [|c cs IHcs]; intros L1 d Hsub Hd.
    { by apply elem_of_nil in Hd. }
    rewrite for_each_cons, yielded_bind, nodes_of_app in Hd.
    apply elem_of_app in Hd as [Hd|Hd].
    - apply (Hstep c L1); [|done]. apply Hsub, list_elem_of_here.
    - destruct (outcome (body c L1)) as [[]| | |]; try by apply elem_of_nil in Hd.
      apply (IHcs _ _ (fun c' Hc' => Hsub c' (list_elem_of_further _ _ _ Hc')) Hd). }
  change (INode elem :: ?l) with ([INode elem] ++ l). rewrite nodes_of_app.
  change (nodes_of [INode elem]) with [elem]. cbn [app head tail].
  split; [by right|]. intros d Hd. by apply (Hloop (children e) L).
Qed.

Lemma traversal_met hp fuel root r :
  traversal hp fuel root r ->
  (nodes_of (yielded r) = [] \/ head (nodes_of (yielded r)) = Some root) /\
  forall d, d ∈ after_start r -> met hp root d.
Proof.
  intros Htr. destruct (traversal_same_nodes _ _ _ _ Htr) as (Hy & _ & _).
  unfold after_start. rewrite Hy. unfold iter.
  apply (safe_iter_yields_met hp root fuel root []). apply walked_start.
Qed.

(** ** A walk that ends reaches all of them *)

Lemma closed_under_nil hp L : closed_under hp L [] [] L.
Proof.
  split; [|split].
  - exists []. split; [by rewrite app_nil_r|]. intros x Hx. by apply elem_of_nil in Hx.
  - intros c Hc. by apply elem_of_nil in Hc.
  - intros p e c Hp. by apply elem_of_nil in Hp.
Qed.

Lemma closed_under_app hp L cs1 ns1 L1 cs2 ns2 L2 :
  closed_under hp L cs1 ns1 L1 -> closed_under hp L1 cs2 ns2 L2 ->
  closed_under hp L (cs1 ++ cs2) (ns1 ++ ns2) L2.
Proof.
  intros ((new1 & E1 & N1) & C1 & P1) ((new2 & E2 & N2) & C2 & P2).
  assert (forall c, c ∈ L1 -> c ∈ L \/ c ∈ ns1 ++ ns2) as Hold.
  { intros c Hc. rewrite E1 in Hc. apply elem_of_app in Hc as [Hc|Hc]; [by left|].
    right. apply elem_of_app. left. by apply N1. }
  split; [|split].
  - exists (new1 ++ new2). split; [by rewrite E2, E1, app_assoc|].
    intros x Hx. apply elem_of_app.
    apply elem_of_app in Hx as [Hx|Hx]; [left; by apply N1 | right; by apply N2].
  - intros c Hc. apply elem_of_app in Hc as [Hc|Hc].
    + destruct (C1 c Hc) as [?|?]; [by left|]. right. apply elem_of_app. by left.
    + destruct (C2 c Hc) as [?|?]; [by apply Hold|]. right. apply elem_of_app. by right.
  - intros p e c Hp Hexp He Hc. apply elem_of_app in Hp as [Hp|Hp].
    + destruct (P1 p e c Hp Hexp He Hc) as [?|?]; [by left|].
      right. apply elem_of_app. by left.
    + destruct (P2 p e c Hp Hexp He Hc) as [?|?]; [by apply Hold|].
      right. apply elem_of_app. by right.
Qed.

(** The child [c] was recursed into with the registry as it was. *)
Lemma closed_under_walk hp L c rest L' :
  closed_under hp L (children_of hp c) rest L' ->
  closed_under hp L [c] (c :: rest) L'.
Proof.
  intros ((new & E & N) & C & P). split; [|split].
  - exists new. split; [done|]. intros x Hx. apply list_elem_of_further. by apply N.
  - intros c' Hc'. apply list_elem_of_singleton in Hc' as ->. right. apply list_elem_of_here.
  - intros p e d Hp Hexp He Hd. apply elem_of_cons in Hp as [->|Hp].
    + rewrite (children_of_Some _ _ _ He) in C.
      destruct (C d Hd) as [?|?]; [by left|]. right. by apply list_elem_of_further.
    + destruct (P p e d Hp Hexp He Hd) as [?|?]; [by left|].
      right. by apply list_elem_of_further.
Qed.

(** The child [c] was put in the registry and recursed into. *)
Lemma closed_under_new hp L c rest L' :
  closed_under hp (L ++ [c]) (children_of hp c) rest L' ->
  closed_under hp L [c] (c :: rest) L'.
Proof.
  intros ((new & E & N) & C & P).
  assert (forall d, d ∈ L ++ [c] \/ d ∈ rest -> d ∈ L \/ d ∈ c :: rest) as Hmove.
  { intros d [Hd|Hd]; [|right; by apply list_elem_of_further].
    apply elem_of_app in Hd as [?|Hd]; [by left|].
    apply list_elem_of_singleton in Hd as ->. right. apply list_elem_of_here. }
  split; [|split].
  - exists (c :: new). split; [by rewrite E, <- app_assoc|].
    intros x Hx. apply elem_of_cons in Hx as [->|Hx]; [apply list_elem_of_here|].
    apply list_elem_of_further. by apply N.
  - intros c' Hc'. apply list_elem_of_singleton in Hc' as ->. right. apply list_elem_of_here.
  - intros p e d Hp Hexp He Hd. apply Hmove. apply elem_of_cons in Hp as [->|Hp].
    + rewrite (children_of_Some _ _ _ He) in C. by apply C.
    + by apply (P p e d).
Qed.

Lemma safe_iter_closed hp fuel :
  forall elem L,
    outcome (safe_iter hp fuel None elem L) = Ret tt ->
    exists rest,
      nodes_of (yielded (safe_iter hp fuel None elem L)) = elem :: rest /\
      closed_under hp L (children_of hp elem) rest
        (registry (safe_iter hp fuel None elem L)).
Proof.
  induction fuel as [|fuel IH]; intros elem L Hout; [done|].
  destruct (hp !! elem) as [e|] eqn:E.
  2: { by destruct (walk_dangling hp fuel None elem L E) as (Hd & _); rewrite Hd in Hout. }
  rewrite (safe_iter_None_S _ _ _ _ _ E) in *. cbv zeta in *. cbn [outcome] in Hout.
  rewrite (children_of_Some _ _ _ E).
  set (body := context_child hp (safe_iter hp fuel None)) in *.
  assert (forall c L1, outcome (body c L1) = Ret tt ->
            closed_under hp L1 [c] (nodes_of (yielded (body c L1))) (registry (body c L1)))
    as Hstep.
  { intros c L1 Hc. unfold body in *. destruct (hp !! c) as [cn|] eqn:Ec.
    2: { unfold context_child, bind, deref in Hc. by rewrite Ec in Hc. }
    rewrite (context_child_S _ _ _ _ _ Ec) in *.
    destruct (is_global cn) eqn:Hg.
    { destruct (IH c L1 Hc) as (rest & -> & Hcl). by apply closed_under_walk. }
    destruct (ref cn) as [t|] eqn:Hr.
    { cbn [yielded registry yield_]. change (nodes_of [INode c]) with [c].
      split; [|split].
      - exists []. split; [by rewrite app_nil_r|]. intros x Hx. by apply elem_of_nil in Hx.
      - intros c' Hc'. by right.
      - intros p e' d Hp Hexp. apply list_elem_of_singleton in Hp as ->.
        by rewrite (expands_reference hp c cn t) in Hexp. }
    rewrite bind_get_registry in *. destruct (py_in c L1) eqn:Hin.
    { cbn [yielded registry ret]. change (nodes_of []) with (@nil handle).
      split; [|split].
      - exists []. split; [by rewrite app_nil_r|]. intros x Hx. by apply elem_of_nil in Hx.
      - intros c' Hc'. apply list_elem_of_singleton in Hc' as ->. left. by apply py_in_spec.
      - intros p e' d Hp. by apply elem_of_nil in Hp. }
    rewrite bind_append_registry in *.
    destruct (IH c (L1 ++ [c]) Hc) as (rest & -> & Hcl). by apply closed_under_new. }
  assert (forall cs L1, outcome (for_each cs body L1) = Ret tt ->
            closed_under hp L1 cs (nodes_of (yielded (for_each cs body L1)))
              (registry (for_each cs body L1))) as Hloop.
  { induction cs as [|c cs IHcs]; intros L1 Hcs; [apply closed_under_nil|].
    rewrite for_each_cons in *.
    destruct (bind_outcome_Ret _ _ _ _ Hcs) as ([] & H1 & H2).
    rewrite (bind_of_Ret _ _ _ _ H1). cbn [yielded registry]. rewrite nodes_of_app.
    change (c :: cs) with ([c] ++ cs).
    apply (closed_under_app hp L1 [c] _ (registry (body c L1))); auto. }
  exists (nodes_of (yielded (for_each (children e) body L))). cbn [yielded registry].
  split; [|by apply Hloop].
  change (INode elem :: ?l) with ([INode elem] ++ l). by rewrite nodes_of_app.
Qed.

Lemma traversal_closed hp fuel root r :
  traversal hp fuel root r -> outcome r = Ret tt ->
  nodes_of (yielded r) = root :: after_start r /\
  closed_under hp [] (children_of hp root) (after_start r) (registry r).
Proof.
  intros Htr Hout. destruct (traversal_same_nodes _ _ _ _ Htr) as (Hy & Hr & Ho).
  unfold after_start. rewrite Hy, Hr. rewrite Ho in Hout. unfold iter in *.
  destruct (safe_iter_closed hp fuel root [] Hout) as (rest & -> & Hcl). done.
Qed.

(** A traversal that has run to its end has yielded, after its start,
    every component that the store lets it meet. *)
Lemma traversal_reaches hp fuel root r d :
  traversal hp fuel root r -> outcome r = Ret tt ->
  met hp root d -> d ∈ after_start r.
Proof.
  intros Htr Hout (p & e & Hp & He & Hd).
  destruct (traversal_closed hp fuel root r Htr Hout) as (_ & _ & C & P).
  assert (forall c, c ∈ children_of hp p -> c ∈ after_start r) as Hall.
  { clear e He Hd. induction Hp as [|p e c Hp IH He Hc Hexp].
    - intros c Hc. destruct (C c Hc) as [Hnil|?]; [by apply elem_of_nil in Hnil|done].
    - intros d' Hd'. unfold children_of in Hd'.
      destruct (hp !! c) as [cn|] eqn:Ec; [|by apply elem_of_nil in Hd'].
      assert (c ∈ after_start r) as Hin.
      { apply IH. by rewrite (children_of_Some _ _ _ He). }
      destruct (P c cn d' Hin Hexp Ec Hd') as [Hnil|?]; [by apply elem_of_nil in Hnil|done]. }
  apply Hall. by rewrite (children_of_Some _ _ _ He).
Qed.

(** After the start, an ordinary local component is yielded as many times
    as the registry holds it, and the registry holds nothing twice. *)
Lemma traversal_after_start hp fuel root r :
  traversal hp fuel root r -> outcome r = Ret tt ->
  NoDup (registry r) /\
  forall c, plain_local hp c ->
    occurrences c (after_start r) = occurrences c (registry r).
Proof.
  intros Htr Hout.
  destruct (traversal_closed hp fuel root r Htr Hout) as (Hns & _).
  destruct (traversal_same_nodes _ _ _ _ Htr) as (Hy & Hr & Ho).
  rewrite Ho in Hout. unfold iter in *.
  destruct (safe_iter_tally hp fuel root [] Hout) as (new & En & Hnd & Hcount).
  rewrite Hr. split; [apply Hnd; constructor|].
  intros c Hc. specialize (Hcount c Hc).
  rewrite <- Hy, Hns in Hcount. rewrite En. cbn [app].
  change (root :: after_start r) with ([root] ++ after_start r) in Hcount.
  rewrite occurrences_app in Hcount. lia.
Qed.


Lemma occurrences_NoDup_le c l : NoDup l -> occurrences c l ≤ 1.
Proof. intros H. rewrite (occurrences_NoDup c l H). case_bool_decide; lia. Qed.



(** ** Global and reference children are yielded at every encounter *)

Lemma encounters_app hp ps qs c :
  encounters hp (ps ++ qs) c = encounters hp ps c + encounters hp qs c.
Proof. induction ps as [|p ps IH]; [done|]. cbn [app encounters]. rewrite IH. lia. Qed.

Lemma occurrences_cons c x l : occurrences c (x :: l) = occurrences c [x] + occurrences c l.
Proof. change (x :: l) with ([x] ++ l). apply occurrences_app. Qed.

Lemma occurrences_filter (f : handle -> bool) c l :
  f c = true -> occurrences c (List.filter f l) = occurrences c l.
Proof.
  intros Hf. induction l as [|x l IH]; [done|]. cbn [List.filter].
  destruct (f x) eqn:Hx.
  - by rewrite (occurrences_cons c x l), (occurrences_cons c x (List.filter f l)), IH.
  - rewrite (occurrences_cons c x l), IH, occurrences_other; [done|]. congruence.
Qed.

Lemma encounters_at_least hp ps c d :
  occurrences c ps * occurrences d (children_of hp c) ≤ encounters hp ps d.
Proof.
  induction ps as [|p ps IH]; [done|].
  rewrite (occurrences_cons c p ps). cbn [encounters].
  destruct (decide (c = p)) as [->|Hne].
  - unfold occurrences at 1. cbn [count_occ]. destruct (Nat.eq_dec p p); [|done]. lia.
  - rewrite occurrences_other by done. lia.
Qed.

Lemma flows_nil hp c : flows hp c [] [].
Proof. done. Qed.

Lemma flows_app hp c cs1 ns1 cs2 ns2 :
  flows hp c cs1 ns1 -> flows hp c cs2 ns2 -> flows hp c (cs1 ++ cs2) (ns1 ++ ns2).
Proof.
  unfold flows. intros H1 H2.
  rewrite List.filter_app, encounters_app, !occurrences_app. lia.
Qed.

(** The child [c0] was recursed into and yielded [c0 :: rest]. *)
Lemma flows_walk hp c c0 rest :
  expands hp c0 = true ->
  occurrences c rest = encounters hp (c0 :: List.filter (expands hp) rest) c ->
  flows hp c [c0] (c0 :: rest).
Proof.
  intros Hexp H. unfold flows. cbn [List.filter]. rewrite Hexp.
  rewrite (occurrences_cons c c0 rest). lia.
Qed.

Lemma safe_iter_flow hp c fuel :
  ~ plain_local hp c ->
  forall elem L,
    outcome (safe_iter hp fuel None elem L) = Ret tt ->
    exists rest,
      nodes_of (yielded (safe_iter hp fuel None elem L)) = elem :: rest /\
      occurrences c rest = encounters hp (elem :: List.filter (expands hp) rest) c.
Proof.
  intros Hc. induction fuel as [|fuel IH]; intros elem L Hout; [done|].
  destruct (hp !! elem) as [e|] eqn:E.
  2: { by destruct (walk_dangling hp fuel None elem L E) as (Hd & _); rewrite Hd in Hout. }
  rewrite (safe_iter_None_S _ _ _ _ _ E) in *. cbv zeta in *. cbn [outcome] in Hout.
  set (body := context_child hp (safe_iter hp fuel None)) in *.
  assert (forall c0 L1, outcome (body c0 L1) = Ret tt ->
            flows hp c [c0] (nodes_of (yielded (body c0 L1)))) as Hstep.
  { intros c0 L1 H0. unfold body in *. destruct (hp !! c0) as [cn|] eqn:Ec.
    2: { unfold context_child, bind, deref in H0. by rewrite Ec in H0. }
    rewrite (context_child_S _ _ _ _ _ Ec) in *.
    destruct (is_global cn) eqn:Hg.
    { destruct (IH c0 L1 H0) as (rest & -> & Hrest).
      apply flows_walk; [by apply (expands_global hp c0 cn) | done]. }
    destruct (ref cn) as [t|] eqn:Hr.
    { cbn [yielded yield_]. change (nodes_of [INode c0]) with [c0].
      unfold flows. cbn [List.filter]. rewrite (expands_reference hp c0 cn t) by done.
      cbn [encounters]. lia. }
    assert (occurrences c [c0] = 0) as Hother.
    { apply occurrences_other. intros ->. apply Hc. by exists cn. }
    rewrite bind_get_registry in *. destruct (py_in c0 L1) eqn:Hin.
    { cbn [yielded ret]. change (nodes_of []) with (@nil handle).
      unfold flows. cbn [List.filter encounters]. rewrite Hother. done. }
    rewrite bind_append_registry in *.
    destruct (IH c0 (L1 ++ [c0]) H0) as (rest & -> & Hrest).
    apply flows_walk; [by apply (expands_local hp c0 cn) | done]. }
  assert (forall cs L1, outcome (for_each cs body L1) = Ret tt ->
            flows hp c cs (nodes_of (yielded (for_each cs body L1)))) as Hloop.
  { induction cs as [|c0 cs IHcs]; intros L1 Hcs; [apply flows_nil|].
    rewrite for_each_cons in *.
    destruct (bind_outcome_Ret _ _ _ _ Hcs) as ([] & H1 & H2).
    rewrite (bind_of_Ret _ _ _ _ H1). cbn [yielded]. rewrite nodes_of_app.
    change (c0 :: cs) with ([c0] ++ cs). apply flows_app; auto. }
  exists (nodes_of (yielded (for_each (children e) body L))). cbn [yielded].
  split.
  { change (INode elem :: ?l) with ([INode elem] ++ l). by rewrite nodes_of_app. }
  pose proof (Hloop (children e) L Hout) as Hf. unfold flows in Hf.
  cbn [encounters]. by rewrite (children_of_Some _ _ _ E).
Qed.

(** In a traversal that has run to its end, a component that is global or
    a reference is yielded, after the start, once for each of its
    occurrences in the child lists the walk went through. *)
Lemma traversal_flow hp fuel root r c :
  traversal hp fuel root r -> outcome r = Ret tt -> ~ plain_local hp c ->
  head (nodes_of (yielded r)) = Some root /\
  occurrences c (after_start r) = encounters hp (expansions hp r) c.
Proof.
  intros Htr Hout Hc. destruct (traversal_same_nodes _ _ _ _ Htr) as (Hy & _ & Ho).
  unfold after_start, expansions. rewrite Hy. rewrite Ho in Hout. unfold iter in *.
  destruct (safe_iter_flow hp c fuel Hc root [] Hout) as (rest & -> & Hflow). done.
Qed.

(** ** The items of the full-context walk *)

Lemma nodes_of_header hp h : nodes_of (header hp h) = [h].
Proof.
  unfold header. destruct (hp !! h) as [e|]; [|done].
  change (INode h :: ?l) with ([INode h] ++ l).
  by rewrite !nodes_of_app, nodes_of_text, nodes_of_attr.
Qed.

Lemma nodes_of_block hp h : nodes_of (block hp h) = [h].
Proof. unfold block. destruct (expands hp h); [apply nodes_of_header | done]. Qed.

Lemma nodes_of_blocks hp ns : nodes_of (flat_map (block hp) ns) = ns.
Proof.
  induction ns as [|h ns IH]; [done|]. cbn [flat_map].
  by rewrite nodes_of_app, nodes_of_block, IH.
Qed.

Lemma header_Some hp h e :
  hp !! h = Some e -> header hp h = INode h :: text_items e ++ attr_items e.
Proof. intros E. unfold header. by rewrite E. Qed.

(** Whatever the budget, the full-context walk from [elem] has yielded
    nothing yet, or the items of [elem] followed by one block for each
    component yielded after it. *)
Lemma safe_iter_context_blocks hp fuel :
  forall elem L,
    yielded (safe_iter_context hp fuel elem L) = [] \/
    exists rest,
      yielded (safe_iter_context hp fuel elem L) =
        header hp elem ++ flat_map (block hp) rest.
Proof.
  induction fuel as [|fuel IH]; intros elem L; [by left|].
  destruct (hp !! elem) as [e|] eqn:E.
  2: { destruct (walk_dangling hp fuel None elem L E) as (_ & _ & ->). by left. }
  right. rewrite (safe_iter_context_S _ _ _ _ _ E). cbv zeta. cbn [yielded].
  set (body := context_child hp (safe_iter_context hp fuel)).
  assert (forall c L1, exists ns, yielded (body c L1) = flat_map (block hp) ns) as Hstep.
  { intros c L1. unfold body. destruct (hp !! c) as [cn|] eqn:Ec.
    2: { exists []. unfold context_child, bind, deref. by rewrite Ec. }
    rewrite (context_child_S _ _ _ _ _ Ec).
    assert (forall L2, expands hp c = true ->
              exists ns, yielded (safe_iter_context hp fuel c L2) = flat_map (block hp) ns)
      as Hrec.
    { intros L2 Hexp. destruct (IH c L2) as [->|(rest & ->)]; [by exists []|].
      exists (c :: rest). cbn [flat_map]. unfold block at 2. by rewrite Hexp. }
    destruct (is_global cn) eqn:Hg.
    { apply Hrec. by apply (expands_global hp c cn). }
    destruct (ref cn) as [t|] eqn:Hr.
    { exists [c]. cbn [flat_map]. unfold block.
      by rewrite (expands_reference hp c cn t). }
    rewrite bind_get_registry. destruct (py_in c L1); [by exists []|].
    rewrite bind_append_registry. apply Hrec. by apply (expands_local hp c cn). }
  assert (forall cs L1, exists ns, yielded (for_each cs body L1) = flat_map (block hp) ns)
    as Hloop.
  { induction cs as [|c cs IHcs]; intros L1; [by exists []|].
    rewrite for_each_cons, yielded_bind.
    destruct (Hstep c L1) as (ns1 & ->).
    destruct (outcome (body c L1)) as [[]| | |].
    - destruct (IHcs (registry (body c L1))) as (ns2 & ->).
      exists (ns1 ++ ns2). by rewrite flat_map_app.
    - exists ns1. by rewrite app_nil_r.
    - exists ns1. by rewrite app_nil_r.
    - exists ns1. by rewrite app_nil_r. }
  destruct (Hloop (children e) L) as (rest & ->).
  exists rest. rewrite (header_Some _ _ _ E). cbn [app]. by rewrite <- app_assoc.
Qed.

Lemma context_blocks_of_run hp fuel elem L :
  yielded (safe_iter_context hp fuel elem L) =
  context_blocks hp (nodes_of (yielded (safe_iter_context hp fuel elem L))).
Proof.
  destruct (safe_iter_context_blocks hp fuel elem L) as [->|(rest & ->)]; [done|].
  by rewrite nodes_of_app, nodes_of_header, nodes_of_blocks.
Qed.

(** A full-context walk that has run to its end yielded its items in the
    order that [context_items] puts into words. *)
Lemma safe_iter_context_items hp fuel :
  forall elem L,
    outcome (safe_iter_context hp fuel elem L) = Ret tt ->
    context_items hp elem L (yielded (safe_iter_context hp fuel elem L))
      (registry (safe_iter_context hp fuel elem L)).
Proof.
  induction fuel as [|fuel IH]; intros elem L Hout; [done|].
  destruct (hp !! elem) as [e|] eqn:E.
  2: { by destruct (walk_dangling hp fuel None elem L E) as (_ & _ & Hd); rewrite Hd in Hout. }
  rewrite (safe_iter_context_S _ _ _ _ _ E) in *. cbv zeta in *.
  cbn [outcome yielded registry] in *.
  set (body := context_child hp (safe_iter_context hp fuel)) in *.
  assert (forall cs L1, outcome (for_each cs body L1) = Ret tt ->
            children_items hp cs L1 (yielded (for_each cs body L1))
              (registry (for_each cs body L1))) as Hloop.
  { induction cs as [|c cs IHcs]; intros L1 Hcs; [apply children_done|].
    rewrite for_each_cons in *.
    destruct (bind_outcome_Ret _ _ _ _ Hcs) as ([] & H1 & H2).
    rewrite (bind_of_Ret _ _ _ _ H1). cbn [yielded registry].
    specialize (IHcs _ H2). revert H1 IHcs.
    generalize (yielded (for_each cs body (registry (body c L1)))) as its2.
    generalize (registry (for_each cs body (registry (body c L1)))) as L2.
    unfold body. destruct (hp !! c) as [cn|] eqn:Ec.
    2: { intros L2 its2 H1. unfold context_child, bind, deref in H1. by rewrite Ec in H1. }
    rewrite (context_child_S _ _ _ _ _ Ec).
    destruct (is_global cn) eqn:Hg.
    { intros L2 its2 H1 Hrest.
      apply (child_global hp c cn cs L1 _ (registry (safe_iter_context hp fuel c L1)));
        auto. }
    destruct (ref cn) as [t|] eqn:Hr.
    { intros L2 its2 _ Hrest. cbn [yielded registry yield_ app].
      by apply (child_reference hp c cn t). }
    rewrite bind_get_registry. destruct (py_in c L1) eqn:Hin.
    { intros L2 its2 _ Hrest. cbn [yielded registry ret app].
      apply (child_seen hp c cn); try done. by apply py_in_spec. }
    rewrite bind_append_registry. intros L2 its2 H1 Hrest.
    apply (child_new hp c cn cs L1 _ (registry (safe_iter_context hp fuel c (L1 ++ [c]))));
      auto. by apply py_in_false. }
  apply (visit hp elem e L); [done|]. by apply Hloop.
Qed.

Lemma shape_expands hp n :
  forall t, depth t ≤ n -> shape hp t = true ->
    forall x, x ∈ preorder t -> expands hp x = true.
Proof.
  induction n as [|n IH]; intros [h ks] Hd Hshape x Hx; cbn [depth] in Hd; [lia|].
  destruct (shape_Rose _ _ _ Hshape) as (e & He & Hg & Hr & _ & Hks).
  cbn [preorder] in Hx. apply elem_of_cons in Hx as [->|Hx].
  { by apply (expands_local hp h e). }
  apply list_elem_of_In, in_flat_map in Hx as (k & Hk & Hx).
  apply list_elem_of_In in Hk, Hx.
  apply (IH k); [|by apply Hks|done].
  pose proof (depth_kid k ks Hk). lia.
Qed.

Lemma flat_map_blocks hp ns :
  (forall x, x ∈ ns -> expands hp x = true) ->
  flat_map (block hp) ns = flat_map (header hp) ns.
Proof.
  induction ns as [|h ns IH]; intros Hall; [done|]. cbn [flat_map].
  rewrite IH by (intros x Hx; by apply Hall, list_elem_of_further).
  unfold block. by rewrite (Hall h (list_elem_of_here _ _)).
Qed.

Lemma context_walk_of_tree hp t fuel :
  shape hp t = true -> NoDup (preorder t) -> depth t ≤ fuel ->
  yielded (_iter_context hp fuel (root_of t)) = flat_map (header hp) (preorder t).
Proof.
  intros Hshape Hnd Hd. unfold _iter_context.
  rewrite context_blocks_of_run.
  destruct (context_walks_same_nodes hp fuel (root_of t) []) as ((-> & _ & _) & _).
  rewrite (safe_iter_tree hp fuel t [] Hshape Hd).
  - cbn [yielded]. rewrite nodes_of_fmap.
    pose proof (shape_expands hp fuel t Hd Hshape) as Hall.
    destruct t as [h ks]. cbn [preorder] in *. cbn [context_blocks flat_map].
    f_equal. apply flat_map_blocks. intros x Hx. by apply Hall, list_elem_of_further.
  - destruct t as [h ks]. cbn [preorder kids_of] in *. by apply NoDup_cons in Hnd as [_ ?].
  - intros x _ Hx. by apply elem_of_nil in Hx.
Qed.

(** ** Ordinary local children *)



(** ** The registry is keyed by identity *)



(** ** Reference children *)

Lemma not_registered hp fuel root r c :
  ~ plain_local hp c -> traversal hp fuel root r -> c ∉ registry r.
Proof.
  intros Hnot Htr Hin. pose proof (traversal_registry _ _ _ _ Htr) as H.
  rewrite Forall_forall in H. by apply Hnot, H.
Qed.



(** ** Global children *)

Lemma both_loop_out_of_fuel fuel :
  forall L, outcome (safe_iter hp_both_loop fuel None 0 L) = OutOfFuel.
Proof.
  induction fuel as [|fuel IH]; intros L; [done|].
  rewrite (safe_iter_None_S hp_both_loop fuel 0 _ L eq_refl).
  cbv zeta. cbn [outcome children]. rewrite for_each_cons.
  unfold bind. unfold context_child at 1. unfold bind at 1.
  rewrite (deref_Some hp_both_loop 0 _ L eq_refl).
  cbn [outcome registry is_global]. by rewrite IH.
Qed.

(** C5, as the code has it.  A global component [c], whatever its [ref],
    is never in the registry, and a traversal that has run to its end has
    recursed into it at every encounter: after the start, [c] is yielded
    once for each of its occurrences in the child lists the walk went
    through, counted with every repetition, and each time its children are
    gone through again, so that each of its global or reference children
    is yielded again; its ordinary local children are yielded too, but an
    ordinary local component is yielded after the start at most once in
    the whole traversal.  The walk raises nothing of its own: a
    traversal that stops by itself is exhausted.  It does stop, within a
    recursion budget that depends on the store, when no cycle of child
    edges runs through global components only. *)
Theorem global_child_is_recursed hp c n :
  hp !! c = Some n -> is_global n = true ->
  (forall fuel root tag, c ∉ registry (iter hp fuel root tag)) /\
  (forall fuel root r, traversal hp fuel root r ->
     (c ∉ registry r) /\
     (ended (outcome r) = true -> outcome r = Ret tt) /\
     (outcome r = Ret tt ->
        nodes_of (yielded r) = root :: after_start r /\
        occurrences c (after_start r) = encounters hp (expansions hp r) c /\
        (forall d, ~ plain_local hp d ->
           occurrences c (after_start r) * occurrences d (children n) ≤
           occurrences d (after_start r)) /\
        (forall d, plain_local hp d -> occurrences d (after_start r) ≤ 1) /\
        (met hp root c ->
           INode c ∈ yielded r /\ forall d, d ∈ children n -> d ∈ after_start r))) /\
  (forall rk root,
     closed_heap hp = true -> global_ranked hp rk = true -> root < length hp ->
     exists budget, forall fuel, budget ≤ fuel ->
       forall r, traversal hp fuel root r -> outcome r = Ret tt).
Proof.
  intros Hc Hg.
  assert (~ plain_local hp c) as Hnot.
  { intros (m & Hm & Hm' & _). congruence. }
  assert (expands hp c = true) as Hexp by (by apply (expands_global hp c n)).
  split; [|split].
  - intros fuel root tag Hin. pose proof (iter_registry hp fuel root tag) as H.
    rewrite Forall_forall in H. by apply Hnot, H.
  - intros fuel root r Htr. split; [by apply (not_registered hp fuel root)|]. split.
    { intros Hend. apply ended_no_raise; [done|].
      intros e. by apply (traversal_no_raise hp fuel root). }
    intros Hout.
    destruct (traversal_closed hp fuel root r Htr Hout) as (Hns & _).
    destruct (traversal_flow hp fuel root r c Htr Hout Hnot) as (_ & Hflow).
    split; [done|]. split; [done|]. split.
    + intros d Hd.
      destruct (traversal_flow hp fuel root r d Htr Hout Hd) as (_ & ->).
      unfold expansions. rewrite Hns. cbn [encounters].
      pose proof (encounters_at_least hp (List.filter (expands hp) (after_start r)) c d) as Hle.
      rewrite (occurrences_filter _ _ _ Hexp), (children_of_Some _ _ _ Hc) in Hle. lia.
    + split.
      { intros d Hd.
        destruct (traversal_after_start hp fuel root r Htr Hout) as (Hnd & Hcount).
        rewrite (Hcount d Hd). by apply occurrences_NoDup_le. }
      intros Hmet.
      pose proof (traversal_reaches hp fuel root r c Htr Hout Hmet) as Hin.
      split.
      { apply elem_of_nodes_of. rewrite Hns. by apply list_elem_of_further. }
      intros d Hd. apply (traversal_reaches hp fuel root r d Htr Hout).
      destruct Hmet as (p & e & Hp & He & Hpc).
      exists c, n. split; [|done]. by apply (walked_child hp root p e c).
  - intros rk root Hcl Hrk Hroot. exists (enough_fuel hp rk [] root).
    intros fuel Hfuel r Htr.
    destruct (traversal_same_nodes _ _ _ _ Htr) as (_ & _ & ->).
    apply ended_no_raise.
    + unfold iter. by apply (safe_iter_good hp rk Hcl Hrk None fuel root []).
    + intros e. apply safe_iter_None_no_raise.
Qed.

Lemma global_child_is_recursed_witness :
  (exists n, hp_both !! 1 = Some n /\ is_global n = true /\ ref n = Some 1) /\
  yielded (iter hp_both 3 0 None) = [INode 0; INode 1; INode 2; INode 1; INode 2] /\
  (1 ∉ registry (iter hp_both 3 0 None)) /\
  occurrences 1 (after_start (iter hp_both 3 0 None)) =
    encounters hp_both (expansions hp_both (iter hp_both 3 0 None)) 1 /\
  encounters hp_both (expansions hp_both (iter hp_both 3 0 None)) 1 = 2 /\
  occurrences 1 (after_start (iter hp_both 3 0 None)) * 1 ≤
    occurrences 2 (after_start (iter hp_both 3 0 None)).
Proof.
  destruct (global_child_is_recursed hp_both 1 _ eq_refl eq_refl) as (_ & H & _).
  destruct (H 3 0 (iter hp_both 3 0 None) (traversal_iter _ _ _)) as (Hreg & _ & Hend).
  destruct (Hend eq_refl) as (_ & Hflow & Hkids & _ & _).
  assert (~ plain_local hp_both 2) as Hnot.
  { intros (m & Hm & _ & Hm'). injection Hm as <-. discriminate. }
  split; [eexists; repeat split; reflexivity|].
  split; [reflexivity|]. split; [exact Hreg|]. split; [exact Hflow|].
  split; [reflexivity|]. exact (Hkids 2 Hnot).
Defined.

(** C5 as stated fails twice.  A global reached twice is not fully
    expanded both times: in [hp_twice] the first expansion of the global 1
    yields 1 and its local child 2, the second yields 1 only, because 2 is
    in the registry by then.  And a malformed shape can make the walk fail:
    from a component flagged both global and reference that is its own
    child, no traversal ends normally, whatever the recursion budget. *)
Lemma global_expansion_limits :
  (let first := safe_iter hp_twice 4 None 1 [] in
   let second := safe_iter hp_twice 4 None 1 (registry first) in
   yielded (iter hp_twice 5 0 None) = INode 0 :: yielded first ++ yielded second /\
   yielded first = [INode 1; INode 2] /\
   yielded second = [INode 1] /\
   yielded second <> yielded first) /\
  ~ (forall (hp : heap) root, closed_heap hp = true -> root < length hp ->
       exists fuel r, traversal hp fuel root r /\ outcome r = Ret tt).
Proof.
  split; [repeat split; discriminate|].
  intros H. destruct (H hp_both_loop 0 eq_refl (Nat.lt_0_succ 0)) as (fuel & r & Htr & Hout).
  destruct (traversal_same_nodes _ _ _ _ Htr) as (_ & _ & Ho).
  rewrite Ho in Hout. unfold iter in Hout. by rewrite both_loop_out_of_fuel in Hout.
Qed.

(** ** A traversal stays below its start *)

(** X16.  A traversal never leaves the descendants of its start.  At any
    point of the walk, whatever the budget, a yielded component is the
    start itself or a child of a component that the walk recurses into,
    which is itself reached that way from the start: it lies below the
    start along the child edges of the store. *)
Theorem traversal_yields_descendants hp fuel root r h :
  traversal hp fuel root r -> h ∈ nodes_of (yielded r) ->
  (h = root \/ met hp root h) /\ descendant hp root h.
Proof.
  intros Htr Hh. destruct (traversal_met hp fuel root r Htr) as (Hhead & Hsound).
  assert (h = root \/ met hp root h) as Hor.
  { unfold after_start in Hsound.
    destruct (nodes_of (yielded r)) as [|x xs]; [by apply elem_of_nil in Hh|].
    destruct Hhead as [?|Hhead]; [done|]. cbn in Hhead. injection Hhead as ->.
    apply elem_of_cons in Hh as [->|Hh]; [by left|]. right. by apply Hsound. }
  split; [done|]. destruct Hor as [->|Hmet]; [apply descendant_self|].
  by apply met_descendant.
Qed.

Lemma traversal_yields_descendants_witness :
  5 ∈ nodes_of (yielded (_iter_context hp_mixed 6 0)) /\
  (5 = 0 \/ met hp_mixed 0 5) /\ descendant hp_mixed 0 5.
Proof.
  assert (nodes_of (yielded (_iter_context hp_mixed 6 0)) = [0; 1; 4; 3; 1; 5; 5; 2; 1; 5])
    as E by reflexivity.
  assert (5 ∈ nodes_of (yielded (_iter_context hp_mixed 6 0))) as Hin.
  { rewrite E. do 5 apply list_elem_of_further. apply list_elem_of_here. }
  split; [exact Hin|].
  apply (traversal_yields_descendants hp_mixed 6 0 (_iter_context hp_mixed 6 0) 5).
  - apply traversal_context.
  - exact Hin.
Defined.

(** ** The order of the items of the full-context walk *)

(** C9, as the code has it.  The full-context walk yields the components
    of the plain walk, in the same order, each with its own items: a
    component that the walk recurses into (the start, a global child, an
    ordinary local child at its first encounter) is followed at once by
    its text, if it has one, and by one pair per attribute; a reference
    child comes alone.  When the walk has run to its end, its items are in
    the order that [context_items] spells out: the component, its text,
    its attributes, then the items of its children in document order.  On
    a tree without sharing, globals or references this is the pre-order
    list of the tree with the items of each component in that order. *)
Theorem context_item_order hp fuel root :
  yielded (_iter_context hp fuel root) =
    context_blocks hp (nodes_of (yielded (iter hp fuel root None))) /\
  (outcome (_iter_context hp fuel root) = Ret tt ->
     context_items hp root [] (yielded (_iter_context hp fuel root))
       (registry (_iter_context hp fuel root))) /\
  (forall t, shape hp t = true -> NoDup (preorder t) -> root_of t = root ->
     depth t ≤ fuel ->
     yielded (_iter_context hp fuel root) = flat_map (header hp) (preorder t)).
Proof.
  split; [|split].
  - unfold _iter_context, iter. rewrite context_blocks_of_run.
    by destruct (context_walks_same_nodes hp fuel root []) as ((-> & _ & _) & _).
  - apply safe_iter_context_items.
  - intros t Hshape Hnd <- Hd. by apply context_walk_of_tree.
Qed.

Lemma context_item_order_witness :
  nodes_of (yielded (iter hp_mixed 6 0 None)) = [0; 1; 4; 3; 1; 5; 5; 2; 1; 5] /\
  yielded (_iter_context hp_mixed 6 0) =
    context_blocks hp_mixed [0; 1; 4; 3; 1; 5; 5; 2; 1; 5] /\
  context_blocks hp_mixed [0; 1; 4; 3; 1; 5; 5; 2; 1; 5] =
    [INode 0; INode 1; IText "t"; IAttr "k" "v"; INode 4; INode 3;
     INode 1; IText "t"; IAttr "k" "v"; INode 5; INode 5; INode 2;
     INode 1; IText "t"; IAttr "k" "v"; INode 5] /\
  context_items hp_mixed 0 [] (yielded (_iter_context hp_mixed 6 0)) [4; 3].
Proof.
  destruct (context_item_order hp_mixed 6 0) as (H1 & H2 & _).
  split; [reflexivity|]. split; [exact H1|]. split; [reflexivity|]. exact (H2 eq_refl).
Defined.

(** C9 as stated fails on reference children: they are yielded, but
    neither their text nor their attributes are.  In [hp_ref_text] the
    reference child 1 has a text and an attribute, and the walk from the
    root yields the root and the child only. *)
Lemma reference_child_yielded_bare :
  ~ (forall (hp : heap) fuel root h e pre post,
       hp !! h = Some e ->
       yielded (_iter_context hp fuel root) = pre ++ INode h :: post ->
       exists post', post = text_items e ++ attr_items e ++ post').
Proof.
  intros H.
  destruct (H hp_ref_text 2 0 1 _ [INode 0] [] eq_refl eq_refl) as (post' & Hpost).
  discriminate.
Qed.
